(** * Bag-of-words vectorisation, cosine similarity and the record store

    A shallow embedding of the algorithmic core of the repository:
    [text_to_vector] and [cosine_similarity] of [test_google.py], the
    identifier that [main] builds for a stored record, and the store and
    ranker that the specification describes around them.

    Python values are modelled as follows.
    - A [str] is a sequence of Unicode code points, [list N].
    - An [int] is a [Z].
    - A [float] is an IEEE 754 binary64 number, Rocq's primitive [float];
      its operations are the kernel's, specified by [FloatAxioms] over
      [SpecFloat].
    - A [dict] is an association list in insertion order.
    - A raised exception is the [Raise] case of [result]. *)

From Stdlib Require Import Strings.String Strings.Ascii.
From Stdlib Require Import List ZArith NArith Bool Lia.
From Stdlib Require Import Sorting.Sorted Sorting.Permutation.
From Stdlib Require Import Numbers.DecimalString Numbers.DecimalZ.
From Stdlib Require Import Floats Reals Lra.
Import ListNotations.

(** Decimal float literals denote the nearest binary64, as in Python. *)
#[global] Set Warnings "-inexact-float".

(** ** Python built-ins used by the source *)

Module Py.

(** *** Strings *)

Definition codepoint := N.
Definition str := list codepoint.

Definition str_eq_dec : forall a b : str, {a = b} + {a <> b} :=
  list_eq_dec N.eq_dec.

(** [a < b] on [str]: lexicographic on code points. *)
Fixpoint str_compare (a b : str) : comparison :=
  match a, b with
  | [], [] => Eq
  | [], _ :: _ => Lt
  | _ :: _, [] => Gt
  | x :: a', y :: b' =>
      match N.compare x y with
      | Eq => str_compare a' b'
      | c => c
      end
  end.

Definition str_ltb (a b : str) : bool :=
  match str_compare a b with Lt => true | _ => false end.

(** The order that [str_ltb] decides, stated on its own. *)
Inductive str_lt : str -> str -> Prop :=
| str_lt_nil : forall y b, str_lt [] (y :: b)
| str_lt_head : forall x y a b, (x < y)%N -> str_lt (x :: a) (y :: b)
| str_lt_tail : forall x a b, str_lt a b -> str_lt (x :: a) (x :: b).

(** A string literal of the development, as code points (one per byte:
    the literals used here are ASCII). *)
Definition lit (s : string) : str :=
  map N_of_ascii (list_ascii_of_string s).

(** *** [sorted]

    [sorted] is stable and compares with [<] only.  It is modelled by the
    stable insertion of each element in front of the sorted rest: an
    element goes after the elements that are [<] it and before the
    first one that is not. *)
Section Sorted.
Context {A : Type} (ltb : A -> A -> bool).

Fixpoint insert (x : A) (l : list A) : list A :=
  match l with
  | [] => [x]
  | y :: l' => if ltb y x then y :: insert x l' else x :: l
  end.

Definition sorted (l : list A) : list A := fold_right insert [] l.
End Sorted.

(** *** [dict] and [collections.Counter] *)

Definition dict := list (str * Z).

Fixpoint dict_get (d : dict) (k : str) (default : Z) : Z :=
  match d with
  | [] => default
  | (k', v) :: d' => if str_eq_dec k' k then v else dict_get d' k default
  end.

(** [d[k] = v]: an existing key keeps its place, a new one goes last. *)
Fixpoint dict_set (d : dict) (k : str) (v : Z) : dict :=
  match d with
  | [] => [(k, v)]
  | (k', v') :: d' =>
      if str_eq_dec k' k then (k', v) :: d' else (k', v') :: dict_set d' k v
  end.

Definition keys (d : dict) : list str := map fst d.

(** [Counter(iterable)]: for each element, [self[elem] = self.get(elem, 0) + 1]. *)
Definition Counter (tokens : list str) : dict :=
  fold_left (fun d t => dict_set d t (dict_get d t 0 + 1)%Z) tokens [].

(** *** [re.findall(r'\b\w+\b', s)]

    [\w+] is greedy and both ends must be word boundaries, so the matches
    are the maximal runs of word characters, left to right.  The scanner
    keeps the run read so far (reversed) in [cur].  Which code points are
    word characters is the [re] module's table, [is_word]. *)
Section Findall.
Variable is_word : codepoint -> bool.

Definition flush (cur : str) (rest : list str) : list str :=
  match cur with
  | [] => rest
  | _ :: _ => rev cur :: rest
  end.

Fixpoint scan (cur : str) (s : str) : list str :=
  match s with
  | [] => flush cur []
  | c :: s' =>
      if is_word c then scan (c :: cur) s'
      else flush cur (scan [] s')
  end.

Definition findall_words (s : str) : list str := scan [] s.

(** What the pattern asks for, stated on its own: the text read as
    separators and maximal runs of word characters.  A run ends at the
    end of the text or in front of a character that is not a word
    character. *)
Definition boundary (s : str) : Prop :=
  match s with
  | [] => True
  | c :: _ => is_word c = false
  end.

Inductive word_runs : str -> list str -> Prop :=
| runs_end : word_runs [] []
| runs_skip : forall c s ws,
    is_word c = false -> word_runs s ws -> word_runs (c :: s) ws
| runs_word : forall w s ws,
    w <> [] -> Forall (fun c => is_word c = true) w -> boundary s ->
    word_runs s ws -> word_runs (w ++ s) (w :: ws).
End Findall.

(** *** Numbers

    [float(n)] for an [int]: the nearest binary64, ties to even.  (Python
    raises [OverflowError] from [2**1024] on; the counts converted here
    are bounded by the length of a text.) *)
Definition float_of_int (z : Z) : float :=
  SF2Prim (binary_normalize prec emax z 0 false).

(** [str(n)] for an [int], as an f-string formats it: decimal digits,
    with a leading [-] below zero. *)
Definition str_of_int (z : Z) : str :=
  lit (NilZero.string_of_int (Z.to_int z)).

(** Exceptions the modelled code can raise. *)
Inductive exn := ZeroDivisionError | ValueError.

Inductive result (A : Type) :=
| Return (a : A)
| Raise (e : exn).
Arguments Return {A} a.
Arguments Raise {A} e.

Definition bind {A B} (m : result A) (k : A -> result B) : result B :=
  match m with
  | Return a => k a
  | Raise e => Raise e
  end.

Notation "x <- m ;; k" := (bind m (fun x => k))
  (at level 61, m at next level, right associativity).

(** The arithmetic that [cosine_similarity] asks of its numbers.  The
    code runs it on [float]. *)
Class Arith (F : Type) := {
  zero : F;
  add : F -> F -> F;
  mul : F -> F -> F;
  div : F -> F -> F;
  sqrt : F -> F;
  eps : F;                       (* the literal [1e-8] *)
  is_zero : F -> bool;           (* [y == 0], the test of [/] *)
  is_negative : F -> bool        (* [x < 0], the test of [math.sqrt] *)
}.

(** binary64: what CPython executes. *)
#[export] Instance binary64 : Arith float := {
  zero := 0%float;
  add := PrimFloat.add;
  mul := PrimFloat.mul;
  div := PrimFloat.div;
  sqrt := PrimFloat.sqrt;
  eps := 1e-8%float;
  is_zero := fun y => (y =? 0)%float;
  is_negative := fun x => (x <? 0)%float
}.

Section Arith.
Context {F : Type} `{Arith F}.

(** [x / y]: [ZeroDivisionError] when [y == 0]. *)
Definition truediv (x y : F) : result F :=
  if is_zero y then Raise ZeroDivisionError else Return (div x y).

(** [math.sqrt(x)]: [ValueError] below zero ([-0.0] and NaN pass). *)
Definition math_sqrt (x : F) : result F :=
  if is_negative x then Raise ValueError else Return (sqrt x).

(** [sum(iterable)]: [0 + x1 + x2 + ...], left to right.  (On floats the
    [int] start value [0] becomes [0.0] at the first addition.  From
    CPython 3.12 on, [sum] also carries a compensation term for floats,
    which this model leaves out.) *)
Definition sum (l : list F) : F := fold_left add l zero.
End Arith.

(** [zip(a, b)] stops at the shorter argument. *)
Definition zip {A B} (a : list A) (b : list B) : list (A * B) := combine a b.

End Py.

Import Py.

(** ** [test_google.py] *)

Section Vectorizer.
(** [str.lower] and the [\w] class are Python's Unicode tables; the
    development holds for any. *)
Variable lower : str -> str.
Variable is_word : codepoint -> bool.

(** [tokens = re.findall(r'\b\w+\b', text.lower())] *)
Definition tokens (text : str) : list str :=
  findall_words is_word (lower text).

(** [text_to_vector(text, vocab=None)] *)
Definition text_to_vector (text : str) (vocab : option (list str))
  : list float * list str :=
  let tokens := tokens text in
  let freqs := Counter tokens in
  let vocab :=
    match vocab with
    | None => sorted str_ltb (keys freqs)
    | Some v => v
    end in
  let vector := map (fun word => float_of_int (dict_get freqs word 0)) vocab in
  (vector, vocab).
End Vectorizer.

(** The frequency of a term among the tokens, as the float that a vector
    holds for it. *)
Definition frequency (tokens : list str) (w : str) : float :=
  float_of_int (Z.of_nat (count_occ str_eq_dec tokens w)).

(** [cosine_similarity(v1, v2)] *)
Definition cosine_similarity {F : Type} `{Arith F} (v1 v2 : list F)
  : result F :=
  let dot := sum (map (fun '(a, b) => mul a b) (zip v1 v2)) in
  norm1 <- math_sqrt (sum (map (fun a => mul a a) v1)) ;;
  norm2 <- math_sqrt (sum (map (fun b => mul b b) v2)) ;;
  truediv dot (add (mul norm1 norm2) eps).

(** The quantities of the specification's formula
    [dot(a,b) / (||a|| * ||b|| + eps)], summed from the left. *)
Module Formula.
Section Formula.
Context {F : Type} `{Arith F}.

Fixpoint dot_from (acc : F) (a b : list F) : F :=
  match a, b with
  | x :: a', y :: b' => dot_from (add acc (mul x y)) a' b'
  | _, _ => acc
  end.

Definition dot (a b : list F) : F := dot_from zero a b.

Fixpoint sum_squares_from (acc : F) (a : list F) : F :=
  match a with
  | x :: a' => sum_squares_from (add acc (mul x x)) a'
  | [] => acc
  end.

Definition norm (a : list F) : F := sqrt (sum_squares_from zero a).

Definition similarity (a b : list F) : F :=
  div (dot a b) (add (mul (norm a) (norm b)) eps).
End Formula.
End Formula.

(** Tests on float vectors and scores. *)
Definition all_zero (v : list float) : bool :=
  forallb (fun x => (x =? 0)%float) v.

Definition non_zero (v : list float) : bool :=
  existsb (fun x => negb (x =? 0)%float) v.

(** [abs(x - y) <= tol] *)
Definition within (tol x y : float) : bool :=
  (abs (x - y) <=? tol)%float.

(** The part of [main] that stores a response: the arguments it hands to
    [collection.add].  [Path(p).stem] is pathlib's; [hash] is the
    interpreter's string hash, which depends on the hash secret that the
    process drew at start-up ([seed]). *)
Record add_request := {
  documents : list str;
  metadatas : list str;          (* the source of each entry *)
  ids : list str;
  embeddings : list (list float)
}.

Section Main.
Variable lower : str -> str.
Variable is_word : codepoint -> bool.
Variable stem : str -> str.
Context {seed : Type}.
Variable hash : seed -> str -> Z.

Definition entry_id (s : seed) (pdf_path response : str) : str :=
  stem pdf_path ++ lit "_" ++ str_of_int (hash s response).

Definition store_response (s : seed) (pdf_path response : str) : add_request :=
  let '(vector, vocab) := text_to_vector lower is_word response None in
  let entry_id := entry_id s pdf_path response in
  {| documents := [response];
     metadatas := [pdf_path];
     ids := [entry_id];
     embeddings := [vector] |}.
End Main.

(** ** CPython's [hash] of a [str]

    [hash(s)] is SipHash-1-3 of the string's bytes under the 128-bit
    secret that the interpreter draws when it starts: at random, unless
    the environment variable PYTHONHASHSEED fixes it.  (Python/pyhash.c
    and Python/bootstrap_hash.c of CPython 3.11, on a 64-bit
    little-endian build.) *)
Module CPython.
Local Open Scope Z_scope.

Definition u64 (x : Z) : Z := x mod 2 ^ 64.

Definition rotate (x b : Z) : Z :=
  u64 (Z.lor (Z.shiftl x b) (Z.shiftr x (64 - b))).

Definition state : Type := Z * Z * Z * Z.

Definition half_round (a b c d s t : Z) : state :=
  let a := u64 (a + b) in
  let c := u64 (c + d) in
  let b := Z.lxor (rotate b s) a in
  let d := Z.lxor (rotate d t) c in
  let a := rotate a 32 in
  (a, b, c, d).

Definition single_round (v : state) : state :=
  let '(v0, v1, v2, v3) := v in
  let '(v0, v1, v2, v3) := half_round v0 v1 v2 v3 13 16 in
  let '(v2, v1, v0, v3) := half_round v2 v1 v0 v3 17 21 in
  (v0, v1, v2, v3).

(** Little-endian value of at most eight bytes. *)
Fixpoint le (bytes : list Z) : Z :=
  match bytes with
  | [] => 0
  | b :: bytes' => b + 256 * le bytes'
  end.

(** The loop over the whole 8-byte words; returns the state and the
    bytes left over. *)
Fixpoint words (v : state) (bytes : list Z) : state * list Z :=
  match bytes with
  | b0 :: b1 :: b2 :: b3 :: b4 :: b5 :: b6 :: b7 :: rest =>
      let mi := le [b0; b1; b2; b3; b4; b5; b6; b7] in
      let '(v0, v1, v2, v3) := v in
      let '(v0, v1, v2, v3) := single_round (v0, v1, v2, Z.lxor v3 mi) in
      words (Z.lxor v0 mi, v1, v2, v3) rest
  | _ => (v, bytes)
  end.

Definition siphash13 (k0 k1 : Z) (src : list Z) : Z :=
  let b := u64 (Z.shiftl (Z.of_nat (length src)) 56) in
  let v0 := Z.lxor k0 0x736f6d6570736575 in
  let v1 := Z.lxor k1 0x646f72616e646f6d in
  let v2 := Z.lxor k0 0x6c7967656e657261 in
  let v3 := Z.lxor k1 0x7465646279746573 in
  let '((v0, v1, v2, v3), tail) := words (v0, v1, v2, v3) src in
  let b := Z.lor b (le tail) in
  let '(v0, v1, v2, v3) := single_round (v0, v1, v2, Z.lxor v3 b) in
  let v0 := Z.lxor v0 b in
  let v2 := Z.lxor v2 0xff in
  let v := single_round (single_round (single_round (v0, v1, v2, v3))) in
  let '(v0, v1, v2, v3) := v in
  Z.lxor (Z.lxor v0 v1) (Z.lxor v2 v3).

(** The 64-bit word read as a [Py_hash_t]. *)
Definition signed (x : Z) : Z := if x <? 2 ^ 63 then x else x - 2 ^ 64.

(** The hash secret: the two key words of SipHash. *)
Definition secret : Type := Z * Z.

Definition hash_bytes (k : secret) (src : list Z) : Z :=
  match src with
  | [] => 0
  | _ :: _ =>
      let x := signed (siphash13 (fst k) (snd k) src) in
      if x =? -1 then -2 else x
  end.

(** The bytes of a [str] object: 1, 2 or 4 bytes per code point, by the
    largest code point of the string. *)
Definition kind (s : str) : nat :=
  let m := fold_right N.max 0%N s in
  if (m <? 256)%N then 1%nat else if (m <? 65536)%N then 2%nat else 4%nat.

Fixpoint le_bytes (n : nat) (x : Z) : list Z :=
  match n with
  | O => []
  | S n' => x mod 256 :: le_bytes n' (x / 256)
  end.

Definition data (s : str) : list Z :=
  flat_map (fun c => le_bytes (kind s) (Z.of_N c)) s.

Definition hash (k : secret) (s : str) : Z := hash_bytes k (data s).

(** The secret under PYTHONHASHSEED=[n]: zero for [0], else the bytes of
    a linear congruential generator started at [n]. *)
Fixpoint lcg_urandom (x : Z) (size : nat) : list Z :=
  match size with
  | O => []
  | S size' =>
      let x := ((x * 214013 + 2531011) mod 2 ^ 32) in
      (Z.shiftr x 16) mod 256 :: lcg_urandom x size'
  end.

Definition secret_of_seed (n : Z) : secret :=
  if n =? 0 then (0, 0)
  else
    let bytes := lcg_urandom n 24 in
    (le (firstn 8 bytes), le (firstn 8 (skipn 8 bytes))).
End CPython.

(** The same function with Python's references made explicit.  The
    objects that outlive the call are lists of [str]: the vocabulary passed
    in, if any, and the one [sorted] builds otherwise.  A [heap] holds the
    list objects alive, by address; the text is an immutable value. *)
Module Obj.
Definition loc := nat.
Definition heap := list (list str).

Definition deref (h : heap) (l : loc) : list str := nth l h [].

Definition alloc (h : heap) (v : list str) : loc * heap :=
  (length h, h ++ [v]).

Section Vectorizer.
Variable lower : str -> str.
Variable is_word : codepoint -> bool.

Definition text_to_vector_ref (text : str) (vocab : option loc) (h : heap)
  : (list float * loc) * heap :=
  let tokens := tokens lower is_word text in
  let freqs := Counter tokens in
  let '(vocab, h) :=
    match vocab with
    | None => alloc h (sorted str_ltb (keys freqs))
    | Some l => (l, h)
    end in
  let vector :=
    map (fun word => float_of_int (dict_get freqs word 0)) (deref h vocab) in
  ((vector, vocab), h).
End Vectorizer.
End Obj.

(** ** The tables on ASCII text

    On text whose code points are all below 128, [str.lower] maps [A-Z]
    to [a-z] and [\w] is [[a-zA-Z0-9_]].  The examples of this
    development are ASCII and use these. *)
Module AsciiText.
Definition lower_char (c : codepoint) : codepoint :=
  if ((65 <=? c) && (c <=? 90))%N then (c + 32)%N else c.

Definition lower (s : str) : str := map lower_char s.

Definition is_word (c : codepoint) : bool :=
  (((48 <=? c) && (c <=? 57)) || ((65 <=? c) && (c <=? 90))
   || ((97 <=? c) && (c <=? 122)) || (c =? 95))%N.
End AsciiText.

(** ** The store of the specification *)

Module VectorStore.
Record record := {
  id : str;
  vector : list float;
  text : str;
  source : str
}.

Record t := {
  vocabulary : list str;
  records : list record      (* in insertion order *)
}.

Inductive error := DimensionMismatch.

Definition empty : t := {| vocabulary := []; records := [] |}.

Definition pad (n : nat) (v : list float) : list float :=
  v ++ repeat 0%float (n - length v).

(** The record replaces the one with its id, in place, or goes last. *)
Fixpoint put (r : record) (rs : list record) : list record :=
  match rs with
  | [] => [r]
  | r' :: rs' =>
      if str_eq_dec (id r') (id r) then r :: rs' else r' :: put r rs'
  end.

(** Modelled from the spec: [upsert(id, text, source, vector)] of section
    4.2, which the repository does not define (its [main] hands the record
    to the [add] method of an external collection).  It inserts or
    overwrites the record for [id]; a vector shorter than the vocabulary
    is zero-padded, a longer one fails with [DimensionMismatch]. *)
Definition upsert (i txt src : str) (v : list float) (s : t) : t + error :=
  if (length (vocabulary s) <? length v)%nat then inr DimensionMismatch
  else
    let r := {| id := i; vector := pad (length (vocabulary s)) v;
                text := txt; source := src |} in
    inl {| vocabulary := vocabulary s; records := put r (records s) |}.

Fixpoint index_of (w : str) (l : list str) : option nat :=
  match l with
  | [] => None
  | w' :: l' =>
      if str_eq_dec w' w then Some O else option_map S (index_of w l')
  end.

(** A vector over [old] re-expressed over [new]: a term keeps its
    weight, a term that [old] lacks gets [0.0]. *)
Definition reproject (old new : list str) (v : list float) : list float :=
  map (fun w => match index_of w old with
                | Some i => nth i v 0%float
                | None => 0%float
                end) new.

(** Modelled from the spec: [growVocabulary(newVocabulary)] of section
    4.2, which the repository does not define (it keeps no vocabulary).
    It replaces the stored vocabulary by the grown one and re-projects
    every stored vector to it. *)
Definition growVocabulary (newVocabulary : list str) (s : t) : t :=
  {| vocabulary := newVocabulary;
     records :=
       map (fun r => {| id := id r;
                        vector := reproject (vocabulary s) newVocabulary (vector r);
                        text := text r;
                        source := source r |}) (records s) |}.

(** Modelled from the spec: [getAll()] of section 4.2, which the
    repository does not define: every current record. *)
Definition getAll (s : t) : list record := records s.

(** The states a store goes through. *)
Inductive reachable : t -> Prop :=
| reach_empty : reachable empty
| reach_upsert : forall s s' i txt src v,
    reachable s -> upsert i txt src v s = inl s' -> reachable s'
| reach_grow : forall s nv,
    reachable s -> reachable (growVocabulary nv s).
Definition ids (s : t) : list str := map id (getAll s).

(** Every vector of a store has the length of its vocabulary, and no two
    records share an id. *)
Definition consistent (s : t) : Prop :=
  Forall (fun r => length (vector r) = length (vocabulary s)) (getAll s) /\
  NoDup (ids s).
End VectorStore.

(** ** The ranker of the specification *)

Module Ranker.
Definition candidate : Type := str * list float.

(** The score of a candidate; a candidate whose vector has not the
    query's length, or whose score raises, is skipped. *)
Definition score (queryVector : list float) (c : candidate)
  : option (str * float) :=
  if (length (snd c) =? length queryVector)%nat then
    match cosine_similarity queryVector (snd c) with
    | Return s => Some (fst c, s)
    | Raise _ => None
    end
  else None.

Fixpoint scores (queryVector : list float) (cs : list candidate)
  : list (str * float) :=
  match cs with
  | [] => []
  | c :: cs' =>
      match score queryVector c with
      | Some x => x :: scores queryVector cs'
      | None => scores queryVector cs'
      end
  end.

(** Stable descending order: each entry, taken in insertion order, goes
    in front of the first entry with a strictly smaller score. *)
Fixpoint place (x : str * float) (l : list (str * float)) : list (str * float) :=
  match l with
  | [] => [x]
  | y :: l' => if (snd y <? snd x)%float then x :: l else y :: place x l'
  end.

Definition descending (l : list (str * float)) : list (str * float) :=
  fold_left (fun acc x => place x acc) l [].

(** Modelled from the spec: [rank(queryVector, candidates, k)] of
    section 4.3, which the repository does not define ([search.py] asks
    an external collection for its 3 nearest records).  Scores are the
    source's [cosine_similarity]. *)
Definition rank (queryVector : list float) (candidates : list candidate) (k : nat)
  : list (str * float) :=
  firstn k (descending (scores queryVector candidates)).

End Ranker.

(** ** The store of the specification's example (section 8) *)

Module Example.
Definition doc1 : VectorStore.record :=
  {| VectorStore.id := lit "doc1";
     VectorStore.vector := [1; 0; 1; 1]%float;
     VectorStore.text := lit "alloy strength density";
     VectorStore.source := lit "a.pdf" |}.

Definition doc2 : VectorStore.record :=
  {| VectorStore.id := lit "doc2";
     VectorStore.vector := [0; 1; 1; 1]%float;
     VectorStore.text := lit "density corrosion strength";
     VectorStore.source := lit "b.pdf" |}.

Definition store : VectorStore.t :=
  {| VectorStore.vocabulary :=
       [lit "alloy"; lit "corrosion"; lit "density"; lit "strength"];
     VectorStore.records := [doc1; doc2] |}.

Definition doc1' : VectorStore.record :=
  {| VectorStore.id := lit "doc1";
     VectorStore.vector := [0; 2; 0; 0]%float;
     VectorStore.text := lit "corrosion corrosion";
     VectorStore.source := lit "c.pdf" |}.

Definition store' : VectorStore.t :=
  {| VectorStore.vocabulary :=
       [lit "alloy"; lit "corrosion"; lit "density"; lit "strength"];
     VectorStore.records := [doc1'; doc2] |}.
End Example.

(** ** Classes of binary64 values, on their specification *)

Module SF.
Local Open Scope Z_scope.

(** Strictly positive: a positive finite number or [+inf]. *)
Definition positive_sf (s : spec_float) : Prop :=
  match s with
  | S754_finite false _ _ | S754_infinity false => True
  | _ => False
  end.

(** Not negative: a NaN, a zero of either sign, or positive. *)
Definition nonneg_sf (s : spec_float) : Prop :=
  match s with
  | S754_finite true _ _ | S754_infinity true => False
  | _ => True
  end.

Definition eps_sf : spec_float := S754_finite false 6044629098073146 (-79).

Definition zero_sf (s : spec_float) : Prop :=
  match s with S754_zero _ => True | _ => False end.

(** Zero or finite: neither NaN nor infinite. *)
Definition finite_sf (s : spec_float) : Prop :=
  match s with S754_zero _ | S754_finite _ _ _ => True | _ => False end.

(** NaN or [+inf]: what a sum of squares is once it has left the finite
    numbers. *)
Definition overflowed_sf (s : spec_float) : Prop :=
  match s with S754_nan | S754_infinity false => True | _ => False end.

(** A number that is not NaN, as a key in a lexicographic order:
    [-inf], the negative numbers, the zeros, the positive numbers,
    [+inf]; finite numbers of one sign by exponent, then mantissa. *)
Definition key (s : spec_float) : Z * Z * Z :=
  match s with
  | S754_infinity true => (-2, 0, 0)
  | S754_finite true m e => (-1, - e, - Zpos m)
  | S754_zero _ | S754_nan => (0, 0, 0)
  | S754_finite false m e => (1, e, Zpos m)
  | S754_infinity false => (2, 0, 0)
  end.


End SF.

(** ** The numbers that floats denote

    A finite float is [m * 2^e]; the reals are used to state how far a
    computed number is from the one meant. *)
Definition F2R (m e : Z) : R := (IZR m * powerRZ 2 e)%R.

Definition SF2R (x : spec_float) : R :=
  match x with
  | S754_finite s m e => if s then (- F2R (Zpos m) e)%R else F2R (Zpos m) e
  | _ => 0%R
  end.

(** The value of a finite float (and 0 for the others). *)
Definition to_R (x : float) : R := SF2R (Prim2SF x).

(** A positive normal number of the format. *)
Definition normal (x : spec_float) : Prop :=
  exists m e, x = S754_finite false m e /\
              (Zpos (digits2_pos m) = prec /\ emin <= e <= emax - prec)%Z.

(** [v] is [x] up to one unit of the last place. *)
Definition near (v x : R) : Prop :=
  (x * (1 - powerRZ 2 (-52)) <= v <= x * (1 + powerRZ 2 (-52)))%R.

(** The largest number of the format. *)
Definition largest : R := F2R 9007199254740991 971.

(** Positive or NaN: what the denominator of the score is. *)
Definition positive_or_nan (s : spec_float) : Prop :=
  match s with
  | S754_nan | S754_finite false _ _ | S754_infinity false => True
  | _ => False
  end.

(** ** The scripts

    [extract_text_from_pdf], [ask_gemini] and [main] of [test_google.py]
    (the first two stand in [analysis.py] too, word for word), [main] of
    [analysis.py] and [main] of [search.py] call the file system, PyPDF2,
    the Gemini client and a chromadb collection.  What these return is
    not the repository's: each is a field of [externals], and every
    statement below holds whatever they return or raise.  The text that
    [get_analysis_prompt] returns, a constant of each script, is a field
    as well: no statement depends on what it says.  What the scripts do
    to their collaborators is recorded: a run produces the [trace] of
    its calls, in order. *)
Module Script.

Definition nl : str := [10%N].

(** [sep.join(parts)] *)
Fixpoint join (sep : str) (parts : list str) : str :=
  match parts with
  | [] => []
  | p :: parts' =>
      match parts' with
      | [] => p
      | _ :: _ => p ++ sep ++ join sep parts'
      end
  end.

(** An exception object: its class, [str(e)], and whether the class
    derives from [Exception] (what [except Exception] catches;
    [KeyboardInterrupt] and [SystemExit] do not). *)
Record exc := {
  cls : str;
  message : str;
  ordinary : bool
}.

Definition FileNotFoundError (msg : str) : exc :=
  {| cls := lit "FileNotFoundError"; message := msg; ordinary := true |}.

Definition ValueError (msg : str) : exc :=
  {| cls := lit "ValueError"; message := msg; ordinary := true |}.

Definition Exception (msg : str) : exc :=
  {| cls := lit "Exception"; message := msg; ordinary := true |}.

Definition IndexError (msg : str) : exc :=
  {| cls := lit "IndexError"; message := msg; ordinary := true |}.

Definition TypeError (msg : str) : exc :=
  {| cls := lit "TypeError"; message := msg; ordinary := true |}.

Inductive outcome (A : Type) :=
| Done (a : A)
| Raised (e : exc).
Arguments Done {A} a.
Arguments Raised {A} e.

(** What [collection.query] returns, as far as [search.py] reads it:
    [results['ids']] and [str(results)]. *)
Record query_result := {
  result_ids : list (list str);
  result_str : str
}.

(** The calls a script makes. *)
Inductive event :=
| Print (text : str)                          (* print(text) *)
| SetEnv (value : str)                        (* os.environ['GEMINI_API_KEY'] = value *)
| PathExists (path : str)                     (* Path(path).exists() *)
| ReadPdf (path : str)                        (* open(path, 'rb'), PdfReader, extract_text *)
| GenerateContent (api_key model contents : str)
| OpenW (path : str)                          (* open(path, 'w', encoding='utf-8') *)
| Write (path content : str)                  (* f.write(content) *)
| PersistentClient (path : str)
| ListCollections
| GetCollection (name : str)
| CreateCollection (name : str)
| GetOrCreateCollection (name : str)
| Add (request : add_request)
| Persist
| Query (query_texts : list (option str)) (n_results : Z).

Record externals := {
  path_exists : str -> outcome bool;          (* Path(p).exists() *)
  path_str : str -> str;                      (* str(Path(p)) *)
  path_stem : str -> str;                     (* Path(p).stem *)
  (* the text of each page: open(p, 'rb'), PyPDF2.PdfReader(file),
     page.extract_text() for page in pdf_reader.pages *)
  read_pages : str -> outcome (list str);
  (* genai.Client(api_key=k).models.generate_content(model=m,
     contents=c).text *)
  generate_content : str -> str -> str -> outcome str;
  open_w : str -> outcome unit;
  write : str -> str -> outcome unit;
  persistent_client : str -> outcome unit;
  list_collections : outcome (list str);      (* the names *)
  get_collection : str -> outcome unit;
  create_collection : str -> outcome unit;
  get_or_create_collection : str -> outcome unit;
  collection_add : add_request -> outcome unit;
  client_persist : outcome unit;
  collection_query : list (option str) -> Z -> outcome query_result;
  str_lower : str -> str;                     (* str.lower *)
  re_word : codepoint -> bool;                (* the class \w *)
  str_hash : str -> Z;                        (* hash, in this process *)
  analysis_prompt : str;                      (* get_analysis_prompt() of test_google.py *)
  analysis_py_prompt : str;                   (* get_analysis_prompt() of analysis.py *)
  path_of_None : str                          (* str(e) of the TypeError of Path(None) *)
}.

(** The state of a run: the value of the environment variable
    GEMINI_API_KEY, if set, and the calls made so far. *)
Record world := {
  environ : option str;
  trace : list event
}.

Definition M (A : Type) : Type := world -> outcome A * world.

Definition ret {A} (a : A) : M A := fun w => (Done a, w).

Definition raise {A} (e : exc) : M A := fun w => (Raised e, w).

Definition bind {A B} (m : M A) (k : A -> M B) : M B :=
  fun w =>
    match m w with
    | (Done a, w') => k a w'
    | (Raised e, w') => (Raised e, w')
    end.

Declare Scope script_scope.
Delimit Scope script_scope with script.
Notation "x <- m ;; k" := (bind m (fun x => k))
  (at level 61, m at next level, right associativity) : script_scope.
Notation "m ;; k" := (bind m (fun _ => k))
  (at level 61, right associativity) : script_scope.
Local Open Scope script_scope.

(** A call: it is recorded, then returns or raises as the collaborator
    does. *)
Definition call {A} (e : event) (r : outcome A) : M A :=
  fun w => (r, {| environ := environ w; trace := trace w ++ [e] |}).

Definition print (text : str) : M unit := call (Print text) (Done tt).

Definition setenv (value : str) : M unit :=
  fun w => (Done tt, {| environ := Some value; trace := trace w ++ [SetEnv value] |}).

Definition getenv : M (option str) := fun w => (Done (environ w), w).

(** [try: m except Exception as e: h(e)] *)
Definition try_except {A} (m : M A) (h : exc -> M A) : M A :=
  fun w =>
    match m w with
    | (Done a, w') => (Done a, w')
    | (Raised e, w') => if ordinary e then h e w' else (Raised e, w')
    end.

(** Truth of a value that is [None] or a [str]. *)
Definition truthy (s : option str) : bool :=
  match s with
  | Some (_ :: _) => true
  | _ => false
  end.

(** [a or b] *)
Definition or_ (a b : option str) : option str :=
  if truthy a then a else b.

(** [f"{x}"] for a value that is [None] or a [str]. *)
Definition format (s : option str) : str :=
  match s with
  | Some s => s
  | None => lit "None"
  end.

Section Scripts.
Variable ext : externals.

(** [extract_text_from_pdf(pdf_path)] *)
Definition extract_text_from_pdf (pdf_path : str) : M str :=
  found <- call (PathExists pdf_path) (path_exists ext pdf_path) ;;
  if negb found then
    raise (FileNotFoundError (lit "PDF file not found: " ++ path_str ext pdf_path))
  else
    try_except
      (pages <- call (ReadPdf pdf_path) (read_pages ext pdf_path) ;;
       ret (join nl pages))
      (fun e => raise (Exception (lit "Error extracting text from PDF: " ++ message e))).

(** [ask_gemini(prompt, text_content, api_key=None)] *)
Definition ask_gemini (prompt text_content : str) (api_key : option str) : M str :=
  env <- getenv ;;
  let api_key := or_ api_key env in
  if negb (truthy api_key) then
    raise (ValueError (lit "Gemini API key not provided"))
  else
    try_except
      (let full_prompt :=
         prompt ++ nl ++ nl ++ lit "Here is the document content:" ++ nl
         ++ text_content in
       call (GenerateContent (format api_key) (lit "gemini-2.5-flash") full_prompt)
         (generate_content ext (format api_key) (lit "gemini-2.5-flash") full_prompt))
      (fun e => raise (Exception (lit "Error calling Gemini API: " ++ message e))).

(** The parsed command line of [test_google.py]. *)
Record args := {
  pdf_path : str;
  output : option str;
  api_key : option str
}.

Definition output_file (a : args) : str :=
  if negb (truthy (output a)) then
    lit "extracted_" ++ path_stem ext (pdf_path a) ++ lit ".txt"
  else format (output a).

(** [main()] of [test_google.py], from the parsed arguments on; the
    value is the return code. *)
Definition main (a : args) : M Z :=
  (if truthy (api_key a) then setenv (format (api_key a)) else ret tt) ;;
  try_except
    (print (lit "Extracting text from " ++ pdf_path a ++ lit "...") ;;
     pdf_text <- extract_text_from_pdf (pdf_path a) ;;
     print (lit "Extracted " ++ str_of_int (Z.of_nat (length pdf_text))
            ++ lit " characters") ;;
     let prompt := analysis_prompt ext in
     print (lit "Analyzing content with Gemini AI...") ;;
     response <- ask_gemini prompt pdf_text None ;;
     let output_file := output_file a in
     call (OpenW output_file) (open_w ext output_file) ;;
     call (Write output_file response) (write ext output_file response) ;;
     print (nl ++ lit "Extracted Information:") ;;
     print (repeat 61%N 50) ;;
     print response ;;
     print (nl ++ lit "Results saved to '" ++ output_file ++ lit "'") ;;
     call (PersistentClient (lit "./chroma_data"))
       (persistent_client ext (lit "./chroma_data")) ;;
     names <- call ListCollections (list_collections ext) ;;
     (if in_dec str_eq_dec (lit "gemini_responses") names then
        call (GetCollection (lit "gemini_responses"))
          (get_collection ext (lit "gemini_responses"))
      else
        call (CreateCollection (lit "gemini_responses"))
          (create_collection ext (lit "gemini_responses"))) ;;
     let request :=
       store_response (str_lower ext) (re_word ext) (path_stem ext)
         (fun _ : unit => str_hash ext) tt (pdf_path a) response in
     call (Add request) (collection_add ext request) ;;
     call Persist (client_persist ext) ;;
     print (lit "Response saved to ChromaDB with ID "
            ++ entry_id (path_stem ext) (fun _ : unit => str_hash ext) tt
                 (pdf_path a) response) ;;
     ret 0%Z)
    (fun e => print (lit "Error: " ++ message e) ;; ret 1%Z).

(** [for x in l: body(x)] *)
Fixpoint for_each {A} (l : list A) (body : A -> M unit) : M unit :=
  match l with
  | [] => ret tt
  | x :: l' => body x ;; for_each l' body
  end.

(** [main()] of [search.py], from the parsed [--query] on. *)
Definition search_main (query : option str) : M unit :=
  call (PersistentClient (lit "./chroma_db"))
    (persistent_client ext (lit "./chroma_db")) ;;
  call (GetOrCreateCollection (lit "materials"))
    (get_or_create_collection ext (lit "materials")) ;;
  print (lit "Searching for: " ++ format query) ;;
  results <- call (Query [query] 3) (collection_query ext [query] 3) ;;
  print (lit "Results:") ;;
  print (result_str results) ;;
  print (lit "foo") ;;
  match result_ids results with
  | [] => raise (IndexError (lit "list index out of range"))
  | ids0 :: _ => for_each ids0 (fun doc_id => print (lit "- " ++ doc_id))
  end.
End Scripts.

(** [analysis.py]: its [extract_text_from_pdf] and [ask_gemini] are the
    ones above. *)
Module Analysis.
Section Scripts.
Variable ext : externals.

(** The parsed command line: [--pdf-path] is an option here, [None]
    when it is not given. *)
Record args := {
  pdf_path : option str;
  output : option str;
  api_key : option str
}.

Definition output_file (a : args) (pdf_path : str) : str :=
  if negb (truthy (output a)) then
    lit "extracted_" ++ path_stem ext pdf_path ++ lit ".txt"
  else format (output a).

(** [main()], from the parsed arguments on; the value is the return
    code.  Without a path, [extract_text_from_pdf(None)] raises at its
    first line, [Path(None)]. *)
Definition main (a : args) : M Z :=
  (if truthy (api_key a) then setenv (format (api_key a)) else ret tt) ;;
  try_except
    (print (lit "Extracting text from " ++ format (pdf_path a) ++ lit "...") ;;
     match pdf_path a with
     | None => raise (TypeError (path_of_None ext))
     | Some path =>
         pdf_text <- extract_text_from_pdf ext path ;;
         print (lit "Extracted " ++ str_of_int (Z.of_nat (length pdf_text))
                ++ lit " characters") ;;
         let prompt := analysis_py_prompt ext in
         let output_file := output_file a path in
         print (lit "Analyzing content with Gemini AI...") ;;
         response <- ask_gemini ext prompt pdf_text None ;;
         print (nl ++ lit "Extracted Information:") ;;
         print (repeat 61%N 50) ;;
         print response ;;
         call (OpenW output_file) (open_w ext output_file) ;;
         call (Write output_file response) (write ext output_file response) ;;
         print (nl ++ lit "Results saved to '" ++ output_file ++ lit "'") ;;
         ret 0%Z
     end)
    (fun e => print (lit "Error: " ++ message e) ;; ret 1%Z).
End Scripts.
End Analysis.

(** Whether two events are calls of the same operation, whatever the
    arguments. *)
Definition same_call (e e' : event) : bool :=
  match e, e' with
  | Print _, Print _
  | SetEnv _, SetEnv _
  | PathExists _, PathExists _
  | ReadPdf _, ReadPdf _
  | GenerateContent _ _ _, GenerateContent _ _ _
  | OpenW _, OpenW _
  | Write _ _, Write _ _
  | PersistentClient _, PersistentClient _
  | ListCollections, ListCollections
  | GetCollection _, GetCollection _
  | CreateCollection _, CreateCollection _
  | GetOrCreateCollection _, GetOrCreateCollection _
  | Add _, Add _
  | Persist, Persist
  | Query _ _, Query _ _ => true
  | _, _ => false
  end.

(** The calls of the operation of [e] in a trace. *)
Definition calls (e : event) (t : list event) : list event :=
  filter (same_call e) t.

(** An occurrence of [e1] comes before an occurrence of [e2]. *)
Inductive before (e1 e2 : event) : list event -> Prop :=
| before_here (t : list event) : In e2 t -> before e1 e2 (e1 :: t)
| before_later (x : event) (t : list event) :
    before e1 e2 t -> before e1 e2 (x :: t).

(** A run from a fresh trace. *)
Definition start (env : option str) : world := {| environ := env; trace := [] |}.
End Script.


(** A world for the examples: one PDF of two pages, a service that
    answers with three words, a file system that works and a database
    that works or not. *)
Module Demo.
Import Script.

Definition ext (database_works : bool) : externals :=
  {| path_exists := fun p =>
       Done (if str_eq_dec p (lit "alloy.pdf") then true else false);
     path_str := fun p => p;
     path_stem := fun p => firstn (length p - 4) p;
     read_pages := fun _ => Done [lit "Alloy 7075"; lit "strength, density"];
     generate_content := fun _ _ _ => Done (lit "alloy strength density");
     open_w := fun _ => Done tt;
     write := fun _ _ => Done tt;
     persistent_client := fun _ => Done tt;
     list_collections := Done [];
     get_collection := fun _ => Done tt;
     create_collection := fun _ => Done tt;
     get_or_create_collection := fun _ => Done tt;
     collection_add := fun _ =>
       if database_works then Done tt
       else Raised (ValueError (lit "dimension mismatch"));
     client_persist := Done tt;
     collection_query := fun _ _ =>
       if database_works
       then Done {| result_ids := [[lit "doc1"; lit "doc2"]];
                    result_str := lit "{'ids': [['doc1', 'doc2']]}" |}
       else Raised (ValueError (lit "dimension mismatch"));
     str_lower := AsciiText.lower;
     re_word := AsciiText.is_word;
     str_hash := CPython.hash (CPython.secret_of_seed 0);
     analysis_prompt := lit "Analyse the alloy.";
     analysis_py_prompt := lit "Analyse the alloy.";
     path_of_None := lit "expected str, bytes or os.PathLike object, not NoneType" |}.

Definition arguments : args :=
  {| pdf_path := lit "alloy.pdf"; output := None; api_key := Some (lit "k-123") |}.
End Demo.

(** * Facts on binary64 arithmetic *)

Module Binary64.
Import SF.
Local Open Scope Z_scope.

Lemma digits2_size p : digits2_pos p = Pos.size p.
Proof. induction p; simpl; congruence. Qed.

Lemma digits2_log2 p : Zpos (digits2_pos p) = Z.log2 (Zpos p) + 1.
Proof.
  destruct p; simpl; rewrite ?digits2_size; lia.
Qed.

Lemma digits2_lower p : 2 ^ (Zpos (digits2_pos p) - 1) <= Zpos p.
Proof.
  rewrite digits2_log2.
  replace (Z.log2 (Z.pos p) + 1 - 1) with (Z.log2 (Zpos p)) by lia.
  apply Z.log2_spec. lia.
Qed.

Lemma digits2_mono p q :
  (p <= q)%positive -> Zpos (digits2_pos p) <= Zpos (digits2_pos q).
Proof.
  intros H. rewrite !digits2_log2.
  apply Z.add_le_mono_r, Z.log2_le_mono. lia.
Qed.

Lemma digits2_iter_xO m k :
  Zpos (digits2_pos (Pos.iter xO m k)) = Zpos (digits2_pos m) + Zpos k.
Proof.
  induction k using Pos.peano_ind.
  - simpl. lia.
  - rewrite Pos.iter_succ. simpl digits2_pos. lia.
Qed.

Section Iter.
Context {A : Type} (f : A -> A) (Q : Z -> A -> Prop).
Hypothesis step : forall k x, 0 <= k -> Q (k + 1) x -> Q k (f x).

Lemma iter_pos_inv p : forall k x,
  0 <= k -> Q (k + Zpos p) x -> Q k (SpecFloat.iter_pos f p x).
Proof.
  induction p as [p IH | p IH |]; intros k x Hk H; simpl.
  - apply IH; trivial. apply IH; [lia|]. apply step; [lia|].
    replace (k + Z.pos p + Z.pos p + 1) with (k + Z.pos p~1) by lia. exact H.
  - apply IH; trivial. apply IH; [lia|].
    replace (k + Z.pos p + Z.pos p) with (k + Z.pos p~0) by lia. exact H.
  - apply step; trivial.
Qed.
End Iter.

Lemma shr_1_halves k mrs :
  0 <= k -> 2 ^ (k + 1) <= shr_m mrs -> 2 ^ k <= shr_m (shr_1 mrs).
Proof.
  intros Hk. replace (k + 1) with (Z.succ k) by lia. rewrite Z.pow_succ_r by trivial.
  assert (0 < 2 ^ k) by (apply Z.pow_pos_nonneg; lia).
  generalize dependent (2 ^ k). intros t Ht.
  destruct mrs as [m r s].
  destruct m as [|[p|p|]|[p|p|]]; cbn [shr_m shr_1]; lia.
Qed.

Lemma shr_lower p mrs :
  2 ^ Zpos p <= shr_m mrs -> 1 <= shr_m (SpecFloat.iter_pos shr_1 p mrs).
Proof.
  intros H.
  apply (iter_pos_inv shr_1 (fun k x => 2 ^ k <= shr_m x))
    with (k := 0) (p := p); try lia.
  - intros; now apply shr_1_halves.
  - exact H.
Qed.

Lemma shr_m_of_loc m l : shr_m (shr_record_of_loc m l) = m.
Proof. destruct l as [|[]]; reflexivity. Qed.

Lemma round_nearest_even_ge x l : x <= round_nearest_even x l.
Proof.
  destruct l as [|[]]; simpl; try lia. destruct (Z.even x); lia.
Qed.

Lemma shr_fexp_lower m e l :
  emin < Zpos (digits2_pos m) + e ->
  1 <= shr_m (fst (shr_fexp prec emax (Zpos m) e l)) /\
  ((snd (shr_fexp prec emax (Zpos m) e l) = e /\
    fst (shr_fexp prec emax (Zpos m) e l) = shr_record_of_loc (Zpos m) l) \/
   emin <= snd (shr_fexp prec emax (Zpos m) e l)).
Proof.
  intros H. unfold shr_fexp, shr. cbn [Zdigits2].
  pose proof (digits2_lower m) as Hm.
  set (d := Zpos (digits2_pos m)) in *.
  assert (Hd : 1 <= d) by (unfold d; lia).
  destruct (fexp prec emax (d + e) - e) as [|p|p] eqn:E; cbn [fst snd].
  - rewrite shr_m_of_loc. split; [lia | now left].
  - split.
    + apply shr_lower. rewrite shr_m_of_loc.
      apply Z.le_trans with (2 ^ (d - 1)); trivial.
      apply Z.pow_le_mono_r; [lia|].
      unfold fexp, SpecFloat.emin, prec, emax in *. lia.
    + right. unfold fexp, SpecFloat.emin, prec, emax in *. lia.
  - rewrite shr_m_of_loc. split; [lia | now left].
Qed.

Lemma binary_round_aux_positive m e l :
  emin < Zpos (digits2_pos m) + e ->
  positive_sf (binary_round_aux prec emax false (Zpos m) e l).
Proof.
  intros H. unfold binary_round_aux.
  destruct (shr_fexp_lower m e l H) as [H1 H2].
  destruct (shr_fexp prec emax (Zpos m) e l) as [mrs' e'] eqn:E1.
  cbn [fst snd] in *.
  pose proof (round_nearest_even_ge (shr_m mrs') (loc_of_shr_record mrs')) as Hr.
  destruct (round_nearest_even (shr_m mrs') (loc_of_shr_record mrs'))
    as [|m2|m2] eqn:E2; try lia.
  assert (H3 : emin < Zpos (digits2_pos m2) + e').
  { destruct H2 as [[-> ->] | H2].
    - rewrite shr_m_of_loc in Hr.
      pose proof (digits2_mono m m2 ltac:(lia)). lia.
    - assert (1 <= Zpos (digits2_pos m2)) by lia. lia. }
  destruct (shr_fexp_lower m2 e' loc_Exact H3) as [H4 _].
  destruct (shr_fexp prec emax (Zpos m2) e' loc_Exact) as [mrs'' e''].
  cbn [fst] in H4.
  destruct (shr_m mrs''); try lia.
  destruct (e'' <=? emax - prec); exact I.
Qed.

Lemma binary_round_positive m e :
  emin < Zpos (digits2_pos m) + e ->
  positive_sf (binary_round prec emax false m e).
Proof.
  intros H. unfold binary_round, shl_align.
  destruct (fexp prec emax (Zpos (digits2_pos m) + e) - e) as [|d|d] eqn:E;
    try now apply binary_round_aux_positive.
  apply binary_round_aux_positive. rewrite digits2_iter_xO. lia.
Qed.

Lemma SFadd_positive m1 e1 m2 e2 :
  emin < Zpos (digits2_pos m2) + e2 ->
  positive_sf (SF64add (S754_finite false m1 e1) (S754_finite false m2 e2)).
Proof.
  intros H. unfold SF64add, SFadd. cbn [cond_Zopp].
  set (a := fst (shl_align m1 e1 (Z.min e1 e2))).
  set (b := fst (shl_align m2 e2 (Z.min e1 e2))).
  cbn [Z.add binary_normalize].
  apply binary_round_positive.
  assert (Hb : Zpos (digits2_pos m2) + e2 <= Zpos (digits2_pos b) + Z.min e1 e2).
  { unfold b, shl_align.
    destruct (Z.min e1 e2 - e2) as [|d|d] eqn:E; cbn [fst]; try lia.
    rewrite digits2_iter_xO. lia. }
  pose proof (digits2_mono b (a + b) ltac:(lia)). lia.
Qed.

Lemma binary_round_aux_nonneg m e l :
  nonneg_sf (binary_round_aux prec emax false m e l).
Proof.
  unfold binary_round_aux.
  destruct (shr_fexp prec emax m e l) as [mrs' e'].
  destruct (shr_fexp prec emax _ e' loc_Exact) as [mrs'' e''].
  destruct (shr_m mrs''); try exact I.
  destruct (e'' <=? emax - prec); exact I.
Qed.

Lemma SFsqrt_nonneg s : nonneg_sf (SF64sqrt s).
Proof.
  destruct s as [[]|[]| |[] m e]; simpl; trivial.
  unfold SF64sqrt, SFsqrt.
  destruct (SFsqrt_core_binary prec emax (Zpos m) e) as [[mz ez] lz].
  apply binary_round_aux_nonneg.
Qed.

Lemma SFmul_nonneg a b : nonneg_sf a -> nonneg_sf b -> nonneg_sf (SF64mul a b).
Proof.
  destruct a as [[]|[]| |[] ma ea], b as [[]|[]| |[] mb eb]; simpl; trivial;
    try contradiction.
  intros _ _. apply binary_round_aux_nonneg.
Qed.

Lemma Prim2SF_eps : Prim2SF eps = eps_sf.
Proof. reflexivity. Qed.

Lemma SFadd_eps_not_zero p :
  nonneg_sf p -> SFeqb (SF64add p eps_sf) (S754_zero false) = false.
Proof.
  destruct p as [[]|[]| |[] m e]; try reflexivity; try contradiction.
  intros _.
  assert (H : positive_sf (SF64add (S754_finite false m e) eps_sf)).
  { apply SFadd_positive. unfold SpecFloat.emin, prec, emax. simpl. lia. }
  destruct (SF64add (S754_finite false m e) eps_sf) as [|[]| |[] m' e'];
    try reflexivity; contradiction.
Qed.

(** The denominator of [cosine_similarity] is never [0.0]. *)
Lemma denominator_not_zero (x y : float) :
  is_zero (add (mul (sqrt x) (sqrt y)) eps) = false.
Proof.
  cbn [is_zero add mul sqrt eps binary64].
  rewrite eqb_spec, add_spec, mul_spec, !sqrt_spec.
  apply SFadd_eps_not_zero, SFmul_nonneg; apply SFsqrt_nonneg.
Qed.

(** *** Classes of values *)

Lemma eqb_zero_sf x : (x =? 0)%float = true -> zero_sf (Prim2SF x).
Proof.
  rewrite eqb_spec. change (Prim2SF 0) with (S754_zero false).
  destruct (Prim2SF x) as [[]|[]| |[] m e]; simpl; trivial; discriminate.
Qed.

Lemma is_finite_sf x : is_finite x = true -> finite_sf (Prim2SF x).
Proof.
  unfold is_finite, is_nan, is_infinity.
  rewrite !eqb_spec, abs_spec. change (Prim2SF infinity) with (S754_infinity false).
  destruct (Prim2SF x) as [[]|[]| |[] m e]; simpl; trivial; discriminate.
Qed.

Lemma overflowed_not_finite x : overflowed_sf (Prim2SF x) -> is_finite x = false.
Proof.
  unfold is_finite, is_nan, is_infinity.
  rewrite !eqb_spec, abs_spec. change (Prim2SF infinity) with (S754_infinity false).
  destruct (Prim2SF x) as [[]|[]| |[] m e]; simpl; trivial; contradiction.
Qed.

Lemma SFadd_nonneg a b : nonneg_sf a -> nonneg_sf b -> nonneg_sf (SF64add a b).
Proof.
  destruct a as [[]|[]| |[] ma ea], b as [[]|[]| |[] mb eb];
    try exact (fun _ _ => I); try contradiction.
  intros _ _. unfold SF64add, SFadd. cbn [cond_Zopp Z.add binary_normalize].
  unfold binary_round. destruct (shl_align _ _ _) as [mz ez].
  apply binary_round_aux_nonneg.
Qed.

Lemma SFadd_overflowed_l a b :
  overflowed_sf a -> nonneg_sf b -> overflowed_sf (SF64add a b).
Proof.
  destruct a as [[]|[]| |[] ma ea], b as [[]|[]| |[] mb eb];
    try exact (fun _ _ => I); contradiction.
Qed.

Lemma SFadd_overflowed_r a b :
  nonneg_sf a -> overflowed_sf b -> overflowed_sf (SF64add a b).
Proof.
  destruct a as [[]|[]| |[] ma ea], b as [[]|[]| |[] mb eb];
    try exact (fun _ _ => I); contradiction.
Qed.

Lemma SFsquare_nonneg s : nonneg_sf (SF64mul s s).
Proof.
  destruct s as [[]|[]| |[] m e]; try exact I; apply binary_round_aux_nonneg.
Qed.

Lemma SFsquare_overflowed s : ~ finite_sf s -> overflowed_sf (SF64mul s s).
Proof.
  destruct s as [[]|[]| |[] m e]; simpl; tauto.
Qed.

Lemma SFsqrt_overflowed s : overflowed_sf s -> overflowed_sf (SF64sqrt s).
Proof.
  destruct s as [[]|[]| |[] m e]; simpl; tauto.
Qed.

Lemma SFmul_zero a b :
  (zero_sf a /\ finite_sf b) \/ (finite_sf a /\ zero_sf b) ->
  zero_sf (SF64mul a b).
Proof.
  destruct a as [[]|[]| |[] ma ea], b as [[]|[]| |[] mb eb]; simpl; tauto.
Qed.

Lemma SFadd_zero_zero b :
  zero_sf b -> SF64add (S754_zero false) b = S754_zero false.
Proof. destruct b as [[]|[]| |[] mb eb]; simpl; tauto. Qed.

Lemma finite_sf_dec s : finite_sf s \/ ~ finite_sf s.
Proof. destruct s; simpl; tauto. Qed.

(** *** Sums *)

Lemma sum_squares_nonneg v acc :
  nonneg_sf (Prim2SF acc) ->
  nonneg_sf (Prim2SF (fold_left add (map (fun a => mul a a) v) acc)).
Proof.
  revert acc. induction v as [|x v IH]; intros acc Hacc; simpl; trivial.
  apply IH. rewrite add_spec, mul_spec. apply SFadd_nonneg; trivial.
  apply SFsquare_nonneg.
Qed.

Lemma sum_squares_overflowed v acc :
  nonneg_sf (Prim2SF acc) ->
  overflowed_sf (Prim2SF acc) \/ Exists (fun x => ~ finite_sf (Prim2SF x)) v ->
  overflowed_sf (Prim2SF (fold_left add (map (fun a => mul a a) v) acc)).
Proof.
  revert acc. induction v as [|x v IH]; intros acc Hacc H; simpl.
  - destruct H as [H|H]; trivial. inversion H.
  - assert (Hn : nonneg_sf (Prim2SF (PrimFloat.add acc (x * x)))).
    { rewrite add_spec, mul_spec. apply SFadd_nonneg; trivial. apply SFsquare_nonneg. }
    apply IH; trivial.
    destruct H as [H|H].
    + left. rewrite add_spec, mul_spec. apply SFadd_overflowed_l; trivial.
      apply SFsquare_nonneg.
    + inversion H as [? ? Hx|? ? Hv]; subst.
      * left. rewrite add_spec, mul_spec. apply SFadd_overflowed_r; trivial.
        now apply SFsquare_overflowed.
      * now right.
Qed.

Lemma nonneg_not_negative x :
  nonneg_sf (Prim2SF x) -> is_negative x = false.
Proof.
  cbn [is_negative binary64]. rewrite ltb_spec.
  change (Prim2SF 0) with (S754_zero false).
  destruct (Prim2SF x) as [[]|[]| |[] m e]; simpl; trivial; contradiction.
Qed.

(** [math.sqrt] never sees a negative sum of squares. *)
Lemma math_sqrt_sum_squares (v : list float) :
  math_sqrt (sum (map (fun a => mul a a) v))
  = Return (sqrt (sum (map (fun a => mul a a) v))).
Proof.
  unfold math_sqrt. rewrite nonneg_not_negative; trivial.
  apply sum_squares_nonneg. exact I.
Qed.

(** A finite norm has finite entries. *)
Lemma finite_norm_entries v :
  is_finite (sqrt (sum (map (fun a => mul a a) v))) = true ->
  Forall (fun x => finite_sf (Prim2SF x)) v.
Proof.
  intros H. apply Forall_forall. intros x Hx.
  destruct (finite_sf_dec (Prim2SF x)) as [|Hn]; trivial.
  rewrite overflowed_not_finite in H; [discriminate|].
  cbn [sqrt binary64]. rewrite sqrt_spec. apply SFsqrt_overflowed.
  apply sum_squares_overflowed; [exact I|].
  right. apply Exists_exists. eauto.
Qed.

Lemma sum_zeros l acc :
  Prim2SF acc = S754_zero false ->
  Forall (fun x => zero_sf (Prim2SF x)) l ->
  Prim2SF (fold_left add l acc) = S754_zero false.
Proof.
  revert acc. induction l as [|x l IH]; intros acc Hacc H; simpl; trivial.
  inversion H; subst. apply IH; trivial.
  rewrite add_spec, Hacc. now apply SFadd_zero_zero.
Qed.

Lemma products_zero a b :
  (Forall (fun x => zero_sf (Prim2SF x)) a /\
   Forall (fun x => finite_sf (Prim2SF x)) b) \/
  (Forall (fun x => finite_sf (Prim2SF x)) a /\
   Forall (fun x => zero_sf (Prim2SF x)) b) ->
  Forall (fun x => zero_sf (Prim2SF x)) (map (fun '(x, y) => mul x y) (zip a b)).
Proof.
  revert b. induction a as [|x a IH]; intros [|y b] H; simpl; try constructor.
  - cbn [mul binary64]. rewrite mul_spec. apply SFmul_zero.
    destruct H as [[Ha Hb]|[Ha Hb]]; inversion Ha; inversion Hb; subst; tauto.
  - apply IH. destruct H as [[Ha Hb]|[Ha Hb]]; inversion Ha; inversion Hb; subst; tauto.
Qed.

Lemma zero_is_finite s : zero_sf s -> finite_sf s.
Proof. destruct s; simpl; tauto. Qed.

Lemma all_zero_sf v :
  all_zero v = true -> Forall (fun x => zero_sf (Prim2SF x)) v.
Proof.
  unfold all_zero. rewrite forallb_forall, Forall_forall.
  intros H x Hx. apply eqb_zero_sf; auto.
Qed.

Lemma norm_zeros v :
  Forall (fun x => zero_sf (Prim2SF x)) v ->
  Prim2SF (sqrt (sum (map (fun a => mul a a) v))) = S754_zero false.
Proof.
  intros H. cbn [sqrt binary64]. rewrite sqrt_spec.
  unfold sum. rewrite sum_zeros; trivial.
  apply Forall_forall. intros y Hy. apply in_map_iff in Hy as [x [<- Hx]].
  rewrite Forall_forall in H. cbn [mul binary64]. rewrite mul_spec.
  apply SFmul_zero. left. split; [auto | apply zero_is_finite; auto].
Qed.

(** With an all-zero vector on one side and a finite norm on the other,
    the quotient is [+0.0]. *)
Lemma zero_quotient d n1 n2 :
  Prim2SF d = S754_zero false ->
  nonneg_sf (Prim2SF n1) -> nonneg_sf (Prim2SF n2) ->
  (zero_sf (Prim2SF n1) /\ finite_sf (Prim2SF n2)) \/
  (finite_sf (Prim2SF n1) /\ zero_sf (Prim2SF n2)) ->
  div d (add (mul n1 n2) eps) = 0%float.
Proof.
  intros Hd H1 H2 H. apply Prim2SF_inj.
  cbn [div add mul binary64].
  rewrite div_spec, add_spec, mul_spec, Hd, Prim2SF_eps.
  pose proof (SFmul_zero _ _ H) as Hz.
  destruct (SF64mul (Prim2SF n1) (Prim2SF n2)) as [[]|[]| |[] m e];
    try contradiction; reflexivity.
Qed.
End Binary64.

(** * [cosine_similarity] *)

Section FormulaFacts.
Context {F : Type} `{Arith F}.

Lemma sum_products_from (a b : list F) acc :
  fold_left add (map (fun '(x, y) => mul x y) (zip a b)) acc
  = Formula.dot_from acc a b.
Proof.
  revert b acc. induction a as [|x a IH]; intros [|y b] acc; simpl; trivial.
Qed.

Lemma sum_squares_from_eq (a : list F) acc :
  fold_left add (map (fun x => mul x x) a) acc
  = Formula.sum_squares_from acc a.
Proof.
  revert acc. induction a as [|x a IH]; intros acc; simpl; trivial.
Qed.

Lemma dot_eq (a b : list F) :
  sum (map (fun '(x, y) => mul x y) (zip a b)) = Formula.dot a b.
Proof. apply sum_products_from. Qed.

Lemma norm_eq (a : list F) :
  sqrt (sum (map (fun x => mul x x) a)) = Formula.norm a.
Proof. unfold Formula.norm, sum. now rewrite sum_squares_from_eq. Qed.

(** Only the common prefix enters the dot product. *)
Lemma dot_from_prefix (a b : list F) acc :
  Formula.dot_from acc a b
  = Formula.dot_from acc (firstn (min (length a) (length b)) a)
                         (firstn (min (length a) (length b)) b).
Proof.
  revert b acc. induction a as [|x a IH]; intros [|y b] acc; simpl; trivial.
Qed.
End FormulaFacts.

(** On floats the call returns, and what it returns is the formula. *)
Lemma cosine_similarity_returns (v1 v2 : list float) :
  cosine_similarity v1 v2 = Return (Formula.similarity v1 v2).
Proof.
  unfold cosine_similarity, truediv, Formula.similarity.
  rewrite !Binary64.math_sqrt_sum_squares. cbn [bind].
  rewrite Binary64.denominator_not_zero, dot_eq, !norm_eq. reflexivity.
Qed.

Lemma zero_side_score (a b : list float) :
  (all_zero a = true /\ is_finite (Formula.norm b) = true) \/
  (is_finite (Formula.norm a) = true /\ all_zero b = true) ->
  Formula.similarity a b = 0%float.
Proof.
  intros H. unfold Formula.similarity.
  rewrite <- dot_eq, <- !norm_eq in *.
  apply Binary64.zero_quotient.
  - unfold sum. apply Binary64.sum_zeros; [reflexivity|].
    apply Binary64.products_zero.
    destruct H as [[Ha Hb]|[Ha Hb]]; [left|right]; split;
      auto using Binary64.all_zero_sf, Binary64.finite_norm_entries.
  - cbn [sqrt binary64]. rewrite sqrt_spec. apply Binary64.SFsqrt_nonneg.
  - cbn [sqrt binary64]. rewrite sqrt_spec. apply Binary64.SFsqrt_nonneg.
  - destruct H as [[Ha Hb]|[Ha Hb]]; [left|right]; split.
    + rewrite Binary64.norm_zeros; [exact I | now apply Binary64.all_zero_sf].
    + now apply Binary64.is_finite_sf.
    + now apply Binary64.is_finite_sf.
    + rewrite Binary64.norm_zeros; [exact I | now apply Binary64.all_zero_sf].
Qed.

(** C7 (as amended).  For vectors of equal length the score is
    [dot(a,b) / (||a|| * ||b|| + 1e-8)] and the call never raises; when one
    vector is all-zero and the norm of the other is finite, the score is
    [0.0]. *)
Theorem cosine_similarity_formula (a b : list float) :
  length a = length b ->
  cosine_similarity a b = Return (Formula.similarity a b) /\
  (all_zero a = true -> is_finite (Formula.norm b) = true ->
   cosine_similarity a b = Return 0%float) /\
  (all_zero b = true -> is_finite (Formula.norm a) = true ->
   cosine_similarity a b = Return 0%float).
Proof.
  intros _. rewrite cosine_similarity_returns.
  split; [reflexivity|].
  split; intros Hz Hf; f_equal; apply zero_side_score; auto.
Qed.

Lemma cosine_similarity_formula_witness :
  cosine_similarity [1; 0; 2]%float [0; 0; 0]%float = Return 0%float.
Proof.
  apply (cosine_similarity_formula [1; 0; 2]%float [0; 0; 0]%float);
    reflexivity.
Defined.

(** C7, as stated, at [a = [1e200]], [b = [0.0]]: the norm of [a]
    overflows to [inf], [inf * 0.0] is NaN, and the score is NaN. *)
Lemma zero_vector_score_is_nan :
  ~ (forall a b : list float,
       length a = length b -> all_zero b = true ->
       exists r, cosine_similarity a b = Return r /\ (r =? 0)%float = true).
Proof.
  intros H.
  destruct (H [1e200]%float [0]%float eq_refl eq_refl) as [r [E Hr]].
  vm_compute in E. inversion E; subst. vm_compute in Hr. discriminate.
Qed.

(** C10.  On any two lists of floats the call returns: the dot product
    runs over the common prefix, each norm over its whole list. *)
Theorem cosine_similarity_total (v1 v2 : list float) :
  let n := min (length v1) (length v2) in
  cosine_similarity v1 v2
  = Return (div (Formula.dot (firstn n v1) (firstn n v2))
                (add (mul (Formula.norm v1) (Formula.norm v2)) eps)) /\
  forall e, cosine_similarity v1 v2 <> Raise e.
Proof.
  intros n. rewrite cosine_similarity_returns. split; [|discriminate].
  unfold Formula.similarity, Formula.dot. now rewrite dot_from_prefix.
Qed.

(** [[3, 4, 12]] against [[3, 4]]: the dot product is 25, the norms are
    13 and 5, and the score is 25 / (65 + 1e-8). *)
Example cosine_similarity_length_mismatch :
  cosine_similarity [3; 4; 12]%float [3; 4]%float
  = Return 0.38461538455621308%float.
Proof. reflexivity. Qed.

(** ** Self-similarity *)

(** C8, as stated, at [v = [1e-5]]: the vector is not zero and its score
    against itself is about [0.0099], the [1e-8] of the denominator being
    a hundred times the squared norm. *)
Lemma self_similarity_small_vector :
  ~ (forall v : list float,
       non_zero v = true ->
       exists r, cosine_similarity v v = Return r /\ within 1e-6 r 1 = true).
Proof.
  intros H.
  destruct (H [1e-5]%float eq_refl) as [r [E Hr]].
  vm_compute in E. inversion E; subst. vm_compute in Hr. discriminate.
Qed.

Example self_similarity_small_vector_score :
  cosine_similarity [1e-5]%float [1e-5]%float = Return 0.0099009900990099028%float.
Proof. reflexivity. Qed.

Example self_similarity_counts :
  match cosine_similarity [1; 0; 1; 1]%float [1; 0; 1; 1]%float with
  | Return r => within 1e-6 r 1
  | Raise _ => false
  end = true.
Proof. reflexivity. Qed.

Lemma dot_from_self {F : Type} `{Arith F} (v : list F) acc :
  Formula.dot_from acc v v = Formula.sum_squares_from acc v.
Proof.
  revert acc. induction v as [|x v IH]; intros acc; simpl; trivial.
Qed.

(** ** Rounding

    How far the result of an operation of binary64 is from the exact
    one, from the definitions of [SpecFloat]: a result of the normal
    range is one of the two neighbours of the exact value in the
    format, hence within one unit of the last place. *)

Module Rounding.
Import SF.
Local Open Scope Z_scope.

Lemma pow2_pos e : (0 < powerRZ 2 e)%R.
Proof. apply powerRZ_lt. lra. Qed.

Lemma pow2_add a b : powerRZ 2 (a + b) = (powerRZ 2 a * powerRZ 2 b)%R.
Proof. apply powerRZ_add. lra. Qed.

Lemma pow2_IZR n : 0 <= n -> IZR (2 ^ n) = powerRZ 2 n.
Proof.
  intros H. rewrite <- (Z2Nat.id n H) at 1 2.
  rewrite <- pow_powerRZ. rewrite <- pow_IZR. reflexivity.
Qed.

Lemma pow2_le a b : a <= b -> (powerRZ 2 a <= powerRZ 2 b)%R.
Proof.
  intros H. replace b with (a + (b - a)) by lia.
  rewrite pow2_add, <- (pow2_IZR (b - a)) by lia.
  assert (H0 : 1 <= 2 ^ (b - a)) by (apply Z.lt_pred_le, Z.pow_pos_nonneg; lia).
  apply IZR_le in H0. pose proof (pow2_pos a) as P.
  set (x := powerRZ 2 a) in *. set (y := IZR (2 ^ (b - a))) in *. nra.
Qed.

Lemma pow2_lt a b : a < b -> (powerRZ 2 a < powerRZ 2 b)%R.
Proof.
  intros H. replace b with (a + (b - a)) by lia.
  rewrite pow2_add, <- (pow2_IZR (b - a)) by lia.
  assert (H0 : 2 <= 2 ^ (b - a)).
  { change 2 with (2 ^ 1) at 1. apply Z.pow_le_mono_r; lia. }
  apply IZR_le in H0. pose proof (pow2_pos a) as P.
  set (x := powerRZ 2 a) in *. set (y := IZR (2 ^ (b - a))) in *. nra.
Qed.

Lemma pow2_neg (n : Z) : 0 <= n -> powerRZ 2 (- n) = (/ IZR (2 ^ n))%R.
Proof. intros H. now rewrite powerRZ_neg', pow2_IZR. Qed.

Lemma F2R_le m1 m2 e : m1 <= m2 -> (F2R m1 e <= F2R m2 e)%R.
Proof.
  intros H. unfold F2R. apply Rmult_le_compat_r; [apply Rlt_le, pow2_pos|].
  now apply IZR_le.
Qed.

Lemma F2R_shift m e k : 0 <= k -> F2R (m * 2 ^ k) e = F2R m (e + k).
Proof.
  intros H. unfold F2R. rewrite mult_IZR, pow2_IZR, pow2_add by trivial. ring.
Qed.

Lemma F2R_pos m e : 0 < m -> (0 < F2R m e)%R.
Proof.
  intros H. unfold F2R. apply Rmult_lt_0_compat; [now apply IZR_lt | apply pow2_pos].
Qed.

(** *** Digits *)

Lemma digits2_bounds p :
  2 ^ (Zpos (digits2_pos p) - 1) <= Zpos p < 2 ^ Zpos (digits2_pos p).
Proof.
  rewrite Binary64.digits2_log2.
  destruct (Z.log2_spec (Zpos p)) as [L U]; [lia|].
  replace (Z.log2 (Zpos p) + 1 - 1) with (Z.log2 (Zpos p)) by lia.
  replace (Z.log2 (Zpos p) + 1) with (Z.succ (Z.log2 (Zpos p))) by lia.
  split; assumption.
Qed.

Lemma digits2_unique p d :
  2 ^ (d - 1) <= Zpos p < 2 ^ d -> Zpos (digits2_pos p) = d.
Proof.
  intros [L U]. rewrite Binary64.digits2_log2.
  assert (0 < d).
  { destruct (Z_lt_le_dec 0 d) as [|Hd]; trivial.
    assert (2 ^ d <= 2 ^ 0) by (apply Z.pow_le_mono_r; lia).
    simpl in *. lia. }
  rewrite (Z.log2_unique (Zpos p) (d - 1)); try lia.
  split; [lia|]. replace (Z.succ (d - 1)) with d by lia. exact U.
Qed.

(** *** Shifting right *)

Lemma shr_1_div2 mrs : 0 <= shr_m mrs -> shr_m (shr_1 mrs) = shr_m mrs / 2.
Proof.
  destruct mrs as [m r s]. cbn [shr_m]. intros H.
  destruct m as [|[p|p|]|p]; cbn [shr_1 shr_m]; try lia; try reflexivity.
  - apply Z.div_unique with 1; lia.
  - apply Z.div_unique with 0; lia.
Qed.

Lemma shr_iter p mrs :
  0 <= shr_m mrs ->
  shr_m (SpecFloat.iter_pos shr_1 p mrs) = shr_m mrs / 2 ^ Zpos p.
Proof.
  intros H0.
  pose (Q := fun (k : Z) (x : shr_record) =>
               k <= Zpos p /\ shr_m x = shr_m mrs / 2 ^ (Zpos p - k)).
  assert (G : Q 0 (SpecFloat.iter_pos shr_1 p mrs)).
  { apply (Binary64.iter_pos_inv shr_1 Q).
    - intros k x Hk [Hle E]. split; [lia|].
      rewrite shr_1_div2.
      + rewrite E, Z.div_div by (try apply Z.pow_pos_nonneg; lia).
        f_equal. replace (Zpos p - k) with (Z.succ (Zpos p - (k + 1))) by lia.
        rewrite Z.pow_succ_r by lia. lia.
      + rewrite E. apply Z.div_pos; [lia | apply Z.pow_pos_nonneg; lia].
    - lia.
    - split; [lia|]. replace (Zpos p - (0 + Zpos p)) with 0 by lia.
      now rewrite Z.div_1_r. }
  destruct G as [_ G]. now rewrite Z.sub_0_r in G.
Qed.

Lemma round_nearest_even_cases m l :
  round_nearest_even m l = m \/ round_nearest_even m l = m + 1.
Proof.
  destruct l as [|[]]; simpl; auto. destruct (Z.even m); auto.
Qed.

Lemma shr_fexp_normal (mx : positive) (ex : Z) (lx : location) :
  let d := Zpos (digits2_pos mx) in
  prec <= d ->
  emin <= d + ex - prec ->
  exists mrs,
    shr_fexp prec emax (Zpos mx) ex lx = (mrs, d + ex - prec) /\
    shr_m mrs = Zpos mx / 2 ^ (d - prec).
Proof.
  intros d Hd He. unfold shr_fexp. cbn [Zdigits2]. fold d.
  assert (Hf : fexp prec emax (d + ex) = d + ex - prec).
  { unfold fexp. fold emin. lia. }
  rewrite Hf. replace (d + ex - prec - ex) with (d - prec) by lia.
  destruct (d - prec) as [|p|p] eqn:E; try lia.
  - eexists. split; [cbn [shr]; f_equal; lia|].
    rewrite Binary64.shr_m_of_loc. now rewrite Z.div_1_r.
  - eexists. split; [cbn [shr]; f_equal; lia|].
    rewrite shr_iter; rewrite Binary64.shr_m_of_loc; [reflexivity | lia].
Qed.

(** Rounding to nearest, as far as it is used: a value between two
    neighbours of the format goes to one of them.  [x] is any real that
    the mantissa [mx], the exponent [ex] and the location describe. *)
Lemma binary_round_aux_faithful (mx : positive) (ex : Z) (lx : location) (x : R) :
  let d := Zpos (digits2_pos mx) in
  prec <= d ->
  emin <= d + ex - prec ->
  d + ex <= emax ->
  (d + ex < emax \/ Zpos mx / 2 ^ (d - prec) + 1 < 2 ^ prec) ->
  (F2R (Zpos mx) ex <= x <= F2R (Zpos mx + 1) ex)%R ->
  exists m e,
    binary_round_aux prec emax false (Zpos mx) ex lx = S754_finite false m e /\
    Zpos (digits2_pos m) = prec /\
    emin <= e <= emax - prec /\
    (x * (1 - powerRZ 2 (-52)) <= F2R (Zpos m) e <= x * (1 + powerRZ 2 (-52)))%R.
Proof.
  intros d Hd He Hmax Hcarry Hx.
  destruct (shr_fexp_normal mx ex lx Hd He) as [mrs [E1 Hm]]. fold d in E1, Hm.
  set (n := d - prec) in *. set (e1 := d + ex - prec) in *.
  set (M := Zpos mx / 2 ^ n) in *.
  pose proof (digits2_bounds mx) as [DL DU]. fold d in DL, DU.
  assert (Hn : 0 <= n) by (unfold n; lia).
  assert (P2 : 0 < 2 ^ n) by (apply Z.pow_pos_nonneg; lia).
  assert (HM : M * 2 ^ n <= Zpos mx < (M + 1) * 2 ^ n).
  { unfold M. pose proof (Z.div_mod (Zpos mx) (2 ^ n) ltac:(lia)).
    pose proof (Z.mod_pos_bound (Zpos mx) (2 ^ n) P2). nia. }
  assert (HMb : 2 ^ (prec - 1) <= M < 2 ^ prec).
  { replace (d - 1) with (prec - 1 + n) in DL by (unfold n; lia).
    replace d with (prec + n) in DU by (unfold n; lia).
    rewrite Z.pow_add_r in DL, DU by (unfold prec; lia).
    assert (0 < 2 ^ (prec - 1)) by (apply Z.pow_pos_nonneg; unfold prec; lia).
    assert (0 < 2 ^ prec) by (apply Z.pow_pos_nonneg; unfold prec; lia).
    split; nia. }
  (* the interval of x *)
  assert (Hx' : (F2R M e1 <= x <= F2R (M + 1) e1)%R).
  { replace e1 with (ex + n) by (unfold e1, n; lia).
    rewrite <- !F2R_shift by trivial.
    destruct Hx as [Hx1 Hx2]. split.
    - eapply Rle_trans; [|exact Hx1]. apply F2R_le. lia.
    - eapply Rle_trans; [exact Hx2|]. apply F2R_le. lia. }
  (* the rounded mantissa *)
  unfold binary_round_aux. rewrite E1. rewrite Hm.
  set (mr := round_nearest_even M (loc_of_shr_record mrs)).
  assert (Hmr : mr = M \/ mr = M + 1) by apply round_nearest_even_cases.
  assert (Hpos : 0 < mr) by (assert (0 < 2 ^ (prec - 1))
                               by (apply Z.pow_pos_nonneg; unfold prec; lia); lia).
  destruct mr as [|pr|pr] eqn:Emr; try lia.
  assert (Hd2 : Zpos (digits2_pos pr) = prec \/
                (Zpos (digits2_pos pr) = prec + 1 /\ Zpos pr = 2 ^ prec)).
  { destruct (Z_lt_le_dec (Zpos pr) (2 ^ prec)) as [L|G].
    - left. apply digits2_unique. lia.
    - right. assert (Zpos pr = 2 ^ prec) by lia. split; trivial.
      apply digits2_unique. rewrite H.
      replace (prec + 1 - 1) with prec by lia. split; [lia|].
      apply Z.pow_lt_mono_r; unfold prec; lia. }
  assert (Hv : exists m e,
             (let '(mrs'', e'') := shr_fexp prec emax (Zpos pr) e1 loc_Exact in
              match shr_m mrs'' with
              | 0 => S754_zero false
              | Zpos m => if e'' <=? emax - prec then S754_finite false m e''
                          else S754_infinity false
              | Zneg _ => S754_nan
              end) = S754_finite false m e /\
             Zpos (digits2_pos m) = prec /\
             emin <= e <= emax - prec /\
             F2R (Zpos m) e = F2R (Zpos pr) e1).
  { destruct Hd2 as [D2|[D2 Ep]].
    - destruct (shr_fexp_normal pr e1 loc_Exact) as [mrs2 [E2 Hm2]];
        try (rewrite D2; unfold e1 in *; lia).
      rewrite D2 in E2, Hm2. rewrite E2, Hm2.
      replace (prec - prec) with 0 by lia. rewrite Z.div_1_r.
      replace (prec + e1 - prec) with e1 by lia.
      exists pr, e1.
      assert ((e1 <=? emax - prec) = true) as -> by (apply Z.leb_le; unfold e1; lia).
      repeat split; trivial; unfold e1; lia.
    - destruct (shr_fexp_normal pr e1 loc_Exact) as [mrs2 [E2 Hm2]];
        try (rewrite D2; unfold e1 in *; lia).
      rewrite D2 in E2, Hm2. rewrite E2, Hm2.
      replace (prec + 1 - prec) with 1 by lia.
      replace (prec + 1 + e1 - prec) with (e1 + 1) by lia.
      exists (Pos.pow 2 52), (e1 + 1).
      assert ((e1 + 1 <=? emax - prec) = true) as ->
          by (apply Z.leb_le; unfold e1; lia).
      assert (Eh : Zpos pr / 2 ^ 1 = Zpos (Pos.pow 2 52)) by (rewrite Ep; reflexivity).
      rewrite Eh.
      split; [reflexivity|]. split; [reflexivity|].
      split; [unfold e1 in *; lia|].
      rewrite Ep. change (2 ^ prec) with (Zpos (Pos.pow 2 52) * 2 ^ 1).
      now rewrite F2R_shift by lia. }
  destruct Hv as [m [e [Ev [Dm [Hee Hval]]]]].
  exists m, e. split; [exact Ev|]. split; [exact Dm|]. split; [exact Hee|].
  rewrite Hval.
  (* the error is at most one unit of the last place *)
  assert (Hu : (powerRZ 2 e1 <= x * powerRZ 2 (-52))%R).
  { destruct Hx' as [Hx1 _].
    assert (F2R (2 ^ (prec - 1)) e1 <= x)%R.
    { eapply Rle_trans; [|exact Hx1]. apply F2R_le. lia. }
    unfold F2R in H. rewrite pow2_IZR in H by (unfold prec; lia).
    change (prec - 1) with 52 in H.
    assert (P : (powerRZ 2 52 * powerRZ 2 (-52) = 1)%R).
    { rewrite <- pow2_add. reflexivity. }
    pose proof (pow2_pos (-52)). pose proof (pow2_pos e1).
    set (a := powerRZ 2 52) in *. set (b := powerRZ 2 (-52)) in *.
    set (c := powerRZ 2 e1) in *. nra. }
  assert (Hstep : (F2R (M + 1) e1 = F2R M e1 + powerRZ 2 e1)%R).
  { unfold F2R. rewrite plus_IZR. ring. }
  destruct Hx' as [Hx1 Hx2]. rewrite Hstep in Hx2.
  destruct Hmr as [->| ->]; rewrite ?Hstep; split; lra.
Qed.

Lemma F2R_digits_upper (m : positive) (e : Z) :
  (F2R (Zpos m + 1) e <= powerRZ 2 (Zpos (digits2_pos m) + e))%R.
Proof.
  destruct (digits2_bounds m) as [_ U].
  rewrite pow2_add, <- pow2_IZR by lia.
  apply F2R_le. lia.
Qed.

Lemma F2R_digits_lower (m : positive) (e : Z) :
  (powerRZ 2 (Zpos (digits2_pos m) - 1 + e) <= F2R (Zpos m) e)%R.
Proof.
  destruct (digits2_bounds m) as [L _].
  rewrite pow2_add, <- pow2_IZR by lia.
  apply F2R_le. lia.
Qed.

(** The magnitude of a value places its digits. *)
Lemma range_digits (m : positive) (e lo hi : Z) (x : R) :
  (F2R (Zpos m) e <= x <= F2R (Zpos m + 1) e)%R ->
  (powerRZ 2 lo < x)%R -> (x < powerRZ 2 hi)%R ->
  lo < Zpos (digits2_pos m) + e <= hi.
Proof.
  intros [H1 H2] Hlo Hhi.
  pose proof (F2R_digits_upper m e) as U.
  pose proof (F2R_digits_lower m e) as L.
  split.
  - destruct (Z_lt_le_dec lo (Zpos (digits2_pos m) + e)) as [|G]; trivial.
    apply pow2_le in G. lra.
  - destruct (Z_lt_le_dec hi (Zpos (digits2_pos m) + e)) as [G|]; trivial.
    assert (G' : hi <= Zpos (digits2_pos m) - 1 + e) by lia.
    apply pow2_le in G'. lra.
Qed.

Lemma largest_below : (largest < powerRZ 2 1024)%R.
Proof.
  unfold largest. replace 1024 with (971 + 53) by lia.
  rewrite pow2_add, <- (pow2_IZR 53) by lia. unfold F2R.
  pose proof (pow2_pos 971). change (2 ^ 53) with 9007199254740992.
  set (p := powerRZ 2 971) in *. clearbody p. nra.
Qed.

Lemma largest_above : (powerRZ 2 1023 <= largest)%R.
Proof.
  unfold largest, F2R. replace 1023 with (52 + 971) by lia.
  rewrite pow2_add, <- (pow2_IZR 52) by lia.
  apply Rmult_le_compat_r; [apply Rlt_le, pow2_pos|].
  apply IZR_le. vm_compute. discriminate.
Qed.

(** Rounding a value of the normal range. *)
Lemma round_normal (mx : positive) (ex : Z) (lx : location) (x : R) :
  prec <= Zpos (digits2_pos mx) ->
  (F2R (Zpos mx) ex <= x <= F2R (Zpos mx + 1) ex)%R ->
  (powerRZ 2 (-1022) < x)%R -> (x < largest)%R ->
  normal (binary_round_aux prec emax false (Zpos mx) ex lx) /\
  near (SF2R (binary_round_aux prec emax false (Zpos mx) ex lx)) x.
Proof.
  intros Hd Hx Hlo Hhi.
  pose proof largest_below as LB.
  pose proof (range_digits mx ex _ 1024 x Hx Hlo ltac:(lra)) as [R1 R2].
  set (d := Zpos (digits2_pos mx)) in *.
  assert (Hc : d + ex < emax \/ Zpos mx / 2 ^ (d - prec) + 1 < 2 ^ prec).
  { destruct (Z_lt_le_dec (d + ex) emax) as [|G]; [now left | right].
    assert (Ee : ex + (d - prec) = 971) by (unfold prec, emax in *; lia).
    assert (P2 : 0 < 2 ^ (d - prec)) by (apply Z.pow_pos_nonneg; lia).
    set (M := Zpos mx / 2 ^ (d - prec)).
    assert (HM : M * 2 ^ (d - prec) <= Zpos mx).
    { unfold M. pose proof (Z.div_mod (Zpos mx) (2 ^ (d - prec)) ltac:(lia)).
      pose proof (Z.mod_pos_bound (Zpos mx) (2 ^ (d - prec)) P2). nia. }
    assert (HR : (F2R M 971 < largest)%R).
    { apply Rle_lt_trans with x; trivial.
      eapply Rle_trans; [|apply Hx].
      rewrite <- Ee, <- F2R_shift by lia. now apply F2R_le. }
    unfold largest, F2R in HR.
    apply Rmult_lt_reg_r in HR; [|apply pow2_pos].
    apply lt_IZR in HR. change (2 ^ prec) with 9007199254740992. lia. }
  destruct (binary_round_aux_faithful mx ex lx x) as [m [e [E [D [He Hv]]]]];
    trivial; try (unfold emin, prec, emax in *; lia).
  rewrite E. split; [now exists m, e|exact Hv].
Qed.

Lemma F2R_mul m1 e1 m2 e2 :
  F2R (m1 * m2) (e1 + e2) = (F2R m1 e1 * F2R m2 e2)%R.
Proof. unfold F2R. rewrite mult_IZR, pow2_add. ring. Qed.

(** *** Multiplication *)

Lemma SFmul_near (x y : spec_float) :
  normal x -> normal y ->
  (powerRZ 2 (-1022) < SF2R x * SF2R y < largest)%R ->
  normal (SF64mul x y) /\ near (SF2R (SF64mul x y)) (SF2R x * SF2R y).
Proof.
  intros [mx [ex [-> [Dx Ex]]]] [my [ey [-> [Dy Ey]]]] [Hlo Hhi].
  cbn [SFmul xorb SF2R] in *.
  change (Zpos (mx * my)) with (Zpos mx * Zpos my) in *.
  apply round_normal; trivial.
  - destruct (digits2_bounds mx) as [Lx _], (digits2_bounds my) as [Ly _].
    rewrite Dx in Lx. rewrite Dy in Ly.
    destruct (digits2_bounds (mx * my)) as [_ U].
    destruct (Z_lt_le_dec (Zpos (digits2_pos (mx * my))) prec) as [G|]; trivial.
    assert (2 ^ Zpos (digits2_pos (mx * my)) <= 2 ^ (prec - 1))
      by (apply Z.pow_le_mono_r; lia).
    change (2 ^ (prec - 1)) with 4503599627370496 in *. nia.
  - rewrite <- F2R_mul. split; [apply Rle_refl|]. apply F2R_le. lia.
Qed.

Ltac hide_pow2 :=
  repeat match goal with
         | |- context [powerRZ 2 ?e] =>
             let p := fresh "p" in set (p := powerRZ 2 e) in *; clearbody p
         | H : context [powerRZ 2 ?e] |- _ =>
             let p := fresh "p" in set (p := powerRZ 2 e) in *; clearbody p
         end.

Lemma normal_range (m : positive) (e lo hi : Z) :
  (powerRZ 2 lo < F2R (Zpos m) e)%R -> (F2R (Zpos m) e < powerRZ 2 hi)%R ->
  lo < Zpos (digits2_pos m) + e <= hi.
Proof.
  intros Hlo Hhi. apply (range_digits m e lo hi (F2R (Zpos m) e)); trivial.
  split; [apply Rle_refl|]. apply F2R_le. lia.
Qed.

(** *** Rounding without a shift *)

Lemma loc_of_shr_record_of_loc m l :
  loc_of_shr_record (shr_record_of_loc m l) = l.
Proof. destruct l as [|[]]; reflexivity. Qed.

(** A mantissa of [prec] digits is only incremented or kept. *)
Lemma binary_round_aux_noshift (mx : positive) (ex : Z) (lx : location) :
  Zpos (digits2_pos mx) = prec ->
  emin <= ex <= emax - prec ->
  round_nearest_even (Zpos mx) lx < 2 ^ prec ->
  binary_round_aux prec emax false (Zpos mx) ex lx
  = S754_finite false (Z.to_pos (round_nearest_even (Zpos mx) lx)) ex.
Proof.
  intros D He Hr.
  assert (F : forall k : positive, Zpos (digits2_pos k) = prec ->
              forall l, shr_fexp prec emax (Zpos k) ex l
                        = (shr_record_of_loc (Zpos k) l, ex)).
  { intros k Dk l. unfold shr_fexp. cbn [Zdigits2]. rewrite Dk.
    replace (fexp prec emax (prec + ex) - ex) with 0
      by (unfold fexp, SpecFloat.emin, prec, emax in *; lia).
    reflexivity. }
  unfold binary_round_aux. rewrite (F mx D).
  rewrite Binary64.shr_m_of_loc, loc_of_shr_record_of_loc.
  pose proof (round_nearest_even_cases (Zpos mx) lx) as Hc.
  destruct (digits2_bounds mx) as [L _]. rewrite D in L.
  destruct (round_nearest_even (Zpos mx) lx) as [|pr|pr]; try lia.
  rewrite (F pr); [|apply digits2_unique; lia].
  rewrite Binary64.shr_m_of_loc.
  assert ((ex <=? emax - prec) = true) as -> by (apply Z.leb_le; lia).
  reflexivity.
Qed.

(** *** Square root *)

Lemma SFsqrt_near (x : spec_float) :
  normal x ->
  (powerRZ 2 (-1000) < SF2R x)%R ->
  normal (SF64sqrt x) /\
  near (SF2R (SF64sqrt x)) (R_sqrt.sqrt (SF2R x)) /\
  exists m e, SF64sqrt x = S754_finite false m e /\ e <= 459.
Proof.
  intros [mx [ex [-> [Dx Ex]]]] Hlo. cbn [SF2R] in *.
  assert (Hhi : (F2R (Zpos mx) ex < powerRZ 2 1024)%R).
  { eapply Rlt_le_trans with (F2R (Zpos mx + 1) ex).
    - unfold F2R. apply Rmult_lt_compat_r; [apply pow2_pos | apply IZR_lt; lia].
    - eapply Rle_trans; [apply F2R_digits_upper|]. apply pow2_le.
      unfold prec, emax in *. lia. }
  pose proof (normal_range mx ex _ _ Hlo Hhi) as [R1 R2]. rewrite Dx in R1, R2.
  unfold SF64sqrt, SFsqrt, SFsqrt_core_binary. cbn [Zdigits2]. rewrite Dx.
  rewrite !Z.div2_div.
  set (e' := Z.min (fexp prec emax ((prec + ex + 1) / 2)) (ex / 2)).
  assert (He' : e' = ex / 2 - 26).
  { unfold e', fexp, SpecFloat.emin, prec, emax in *.
    Z.to_euclidean_division_equations. lia. }
  assert (Hs : ex - 2 * e' = 52 \/ ex - 2 * e' = 53)
    by (rewrite He'; Z.to_euclidean_division_equations; lia).
  assert (He459 : emin <= e' <= 459).
  { rewrite He'. unfold SpecFloat.emin, prec, emax in *.
    Z.to_euclidean_division_equations. lia. }
  set (s := ex - 2 * e') in *.
  set (m' := Zpos mx * 2 ^ s).
  assert (Em : match s with
               | 0 => Zpos mx
               | Zpos _ => Z.shiftl (Zpos mx) s
               | Zneg _ => 0
               end = m').
  { destruct s eqn:Es; try lia. rewrite Z.shiftl_mul_pow2 by lia. reflexivity. }
  rewrite Em.
  destruct (digits2_bounds mx) as [Lx Ux]. rewrite Dx in Lx, Ux.
  change (2 ^ (prec - 1)) with (2 ^ 52) in Lx. change (2 ^ prec) with (2 ^ 53) in Ux.
  assert (Hm' : 2 ^ 104 <= m' /\ (s = 52 -> m' < 2 ^ 105) /\
                m' <= (2 ^ 53 - 1) * 2 ^ 53).
  { unfold m'. destruct Hs as [-> | ->].
    - change (2 ^ 104) with (2 ^ 52 * 2 ^ 52). change (2 ^ 105) with (2 ^ 53 * 2 ^ 52).
      change (2 ^ 53) with (2 * 2 ^ 52) at 3.
      assert (0 < 2 ^ 52) by reflexivity. repeat split; try nia.
    - change (2 ^ 104) with (2 ^ 52 * 2 ^ 52).
      assert (0 < 2 ^ 52) by reflexivity. assert (2 ^ 53 = 2 * 2 ^ 52) by reflexivity.
      repeat split; try nia. }
  destruct Hm' as [Hm1 [Hm2 Hm3]].
  pose proof (Z.sqrtrem_spec m' ltac:(lia)) as SP.
  destruct (Z.sqrtrem m') as [q r]. destruct SP as [Eq Hr].
  assert (Hq : 2 ^ 52 <= q < 2 ^ 53).
  { change (2 ^ 104) with (2 ^ 52 * 2 ^ 52) in Hm1.
    change (2 ^ 53) with (2 * 2 ^ 52) in *.
    assert (0 < 2 ^ 52) by reflexivity.
    generalize dependent (2 ^ 52). intros. nia. }
  destruct q as [|q|q]; try lia.
  (* the value *)
  assert (Hv : F2R (Zpos mx) ex = F2R m' (2 * e')).
  { unfold m'. rewrite F2R_shift by lia. f_equal. unfold s. lia. }
  assert (Hsq : forall k, (F2R k e' * F2R k e' = F2R (k * k) (2 * e'))%R).
  { intros k. replace (2 * e') with (e' + e') by lia. now rewrite F2R_mul. }
  assert (Hx : (F2R (Zpos q) e' <= R_sqrt.sqrt (F2R (Zpos mx) ex)
                <= F2R (Zpos q + 1) e')%R).
  { rewrite Hv. split.
    - rewrite <- (sqrt_square (F2R (Zpos q) e'))
        by (apply Rlt_le, F2R_pos; lia).
      apply sqrt_le_1_alt. rewrite Hsq. apply F2R_le. lia.
    - rewrite <- (sqrt_square (F2R (Zpos q + 1) e'))
        by (apply Rlt_le, F2R_pos; lia).
      apply sqrt_le_1_alt. rewrite Hsq. apply F2R_le. lia. }
  assert (Hpos : (0 <= F2R (Zpos mx) ex)%R) by (apply Rlt_le, F2R_pos; lia).
  pose proof (sqrt_sqrt _ Hpos) as Hss.
  pose proof (sqrt_pos (F2R (Zpos mx) ex)) as Hsp.
  set (y := R_sqrt.sqrt (F2R (Zpos mx) ex)) in *.
  assert (Dq : Zpos (digits2_pos q) = prec).
  { apply digits2_unique. change (2 ^ (prec - 1)) with (2 ^ 52).
    change (2 ^ prec) with (2 ^ 53). lia. }
  set (l := if r =? 0 then loc_Exact
            else loc_Inexact (if r <=? Zpos q then Lt else Gt)).
  assert (Hround : round_nearest_even (Zpos q) l < 2 ^ prec).
  { change (2 ^ prec) with (2 ^ 53).
    destruct (Z_le_gt_dec (Zpos q + 2) (2 ^ 53)) as [Hle|Hgt].
    - destruct (round_nearest_even_cases (Zpos q) l) as [-> | ->]; lia.
    - assert (Eqq : Zpos q = 2 ^ 53 - 1) by lia.
      assert (Hrq : r <= Zpos q).
      { destruct Hs as [Es|Es].
        - specialize (Hm2 Es). rewrite Eqq in Eq.
          change (2 ^ 105) with 40564819207303340847894502572032 in Hm2.
          change (2 ^ 53) with 9007199254740992 in Eq. lia.
        - rewrite Eqq in *. change (2 ^ 53) with 9007199254740992 in *. lia. }
      unfold l. destruct (r =? 0); [simpl; lia|].
      apply Z.leb_le in Hrq. rewrite Hrq. simpl. lia. }
  assert (Hy1 : (powerRZ 2 (-1022) < y)%R).
  { (* else y * y <= 2^-1000 *)
    apply Rnot_le_lt. intros C.
    assert (powerRZ 2 (-1022) * powerRZ 2 (-1022) <= powerRZ 2 (-1000))%R.
    { rewrite <- pow2_add. apply pow2_le. lia. }
    pose proof (pow2_pos (-1022)). clearbody y.
    set (a := powerRZ 2 (-1022)) in *. clearbody a. hide_pow2.
    assert (y * y <= a * a)%R by (apply Rmult_le_compat; lra).
    lra. }
  assert (Hy2 : (y < largest)%R).
  { apply Rnot_le_lt. intros C.
    assert (powerRZ 2 1024 <= largest * largest)%R.
    { apply Rle_trans with (powerRZ 2 512 * powerRZ 2 512)%R.
      - rewrite <- pow2_add. apply pow2_le. lia.
      - assert (powerRZ 2 512 <= largest)%R.
        { eapply Rle_trans; [|apply largest_above]. apply pow2_le. lia. }
        pose proof (pow2_pos 512).
        apply Rmult_le_compat; lra. }
    unfold largest in *. clearbody y.
    set (a := F2R 9007199254740991 971) in *.
    assert (0 < a)%R by (apply F2R_pos; lia). clearbody a. hide_pow2.
    assert (a * a <= y * y)%R by (apply Rmult_le_compat; lra).
    lra. }
  destruct (round_normal q e' l y) as [Nn Vn]; trivial; try lia.
  split; [exact Nn|]. split; [exact Vn|].
  rewrite binary_round_aux_noshift; trivial; [|unfold emax, prec in *; lia].
  do 2 eexists. split; [reflexivity | lia].
Qed.

(** *** Addition *)

Lemma iter_xO_value (m d : positive) :
  Zpos (Pos.iter xO m d) = Zpos m * 2 ^ Zpos d.
Proof.
  induction d using Pos.peano_ind.
  - simpl. lia.
  - rewrite Pos.iter_succ, Pos2Z.inj_xO, IHd, Pos2Z.inj_succ, Z.pow_succ_r by lia.
    lia.
Qed.

Lemma shl_align_value (m : positive) (e e' : Z) :
  F2R (Zpos (fst (shl_align m e e'))) (snd (shl_align m e e')) = F2R (Zpos m) e /\
  Zpos (digits2_pos (fst (shl_align m e e'))) + snd (shl_align m e e')
  = Zpos (digits2_pos m) + e /\
  (e' <= e -> snd (shl_align m e e') = e') /\
  (e <= e' -> fst (shl_align m e e') = m).
Proof.
  unfold shl_align. destruct (e' - e) as [|d|d] eqn:E; cbn [fst snd].
  - repeat split; trivial; lia.
  - repeat split; trivial; lia.
  - rewrite iter_xO_value, Binary64.digits2_iter_xO.
    split; [|repeat split; lia].
    rewrite F2R_shift by lia. f_equal. lia.
Qed.

Lemma binary_round_near (m : positive) (e : Z) :
  (powerRZ 2 (-1022) < F2R (Zpos m) e < largest)%R ->
  normal (binary_round prec emax false m e) /\
  near (SF2R (binary_round prec emax false m e)) (F2R (Zpos m) e).
Proof.
  intros [Hlo Hhi]. unfold binary_round.
  pose proof largest_below as LB.
  pose proof (normal_range m e _ 1024 Hlo ltac:(lra)) as [R1 R2].
  set (e' := fexp prec emax (Zpos (digits2_pos m) + e)).
  assert (He' : e' = Zpos (digits2_pos m) + e - prec).
  { unfold e', fexp, SpecFloat.emin, prec, emax in *. lia. }
  destruct (shl_align_value m e e') as [V [D [S1 S2]]].
  destruct (shl_align m e e') as [mz ez]. cbn [fst snd] in *.
  apply round_normal; rewrite ?V; trivial.
  - destruct (Z_le_gt_dec e' e) as [L|G].
    + rewrite (S1 L) in D. lia.
    + rewrite (S2 ltac:(lia)). lia.
  - rewrite <- V. split; [apply Rle_refl|]. apply F2R_le. lia.
Qed.

Lemma SFadd_near (x y : spec_float) :
  normal x -> normal y ->
  (SF2R x + SF2R y < largest)%R ->
  normal (SF64add x y) /\ near (SF2R (SF64add x y)) (SF2R x + SF2R y).
Proof.
  intros [mx [ex [-> [Dx Ex]]]] [my [ey [-> [Dy Ey]]]] Hhi.
  cbn [SF2R] in *. unfold SF64add, SFadd. cbn [cond_Zopp].
  set (ez := Z.min ex ey).
  destruct (shl_align_value mx ex ez) as [Vx [_ [Sx _]]].
  destruct (shl_align_value my ey ez) as [Vy [_ [Sy _]]].
  rewrite Sx in Vx by (unfold ez; lia). rewrite Sy in Vy by (unfold ez; lia).
  set (a := fst (shl_align mx ex ez)) in *.
  set (b := fst (shl_align my ey ez)) in *.
  change (Zpos a + Zpos b) with (Zpos (a + b)). cbn [binary_normalize].
  assert (V : F2R (Zpos (a + b)) ez = (F2R (Zpos mx) ex + F2R (Zpos my) ey)%R).
  { rewrite <- Vx, <- Vy. unfold F2R. rewrite Pos2Z.inj_add, plus_IZR. ring. }
  rewrite <- V in *.
  apply binary_round_near. split; trivial.
  rewrite V.
  pose proof (F2R_digits_lower mx ex) as Lx. rewrite Dx in Lx.
  pose proof (F2R_pos (Zpos my) ey ltac:(lia)) as Py.
  assert (powerRZ 2 (-1022) <= powerRZ 2 (prec - 1 + ex))%R
    by (apply pow2_le; unfold SpecFloat.emin, prec, emax in *; lia).
  lra.
Qed.

(** *** Division *)

Lemma SFdiv_near (x y : spec_float) :
  normal x -> normal y ->
  (powerRZ 2 (-1000) < SF2R x / SF2R y < powerRZ 2 1000)%R ->
  normal (SF64div x y) /\ near (SF2R (SF64div x y)) (SF2R x / SF2R y).
Proof.
  intros [mx [ex [-> [Dx Ex]]]] [my [ey [-> [Dy Ey]]]] [Hlo Hhi].
  cbn [SF2R] in *. unfold SF64div, SFdiv, SFdiv_core_binary.
  cbn [Zdigits2 xorb]. rewrite Dx, Dy.
  destruct (digits2_bounds mx) as [Lx Ux]. rewrite Dx in Lx, Ux.
  destruct (digits2_bounds my) as [Ly Uy]. rewrite Dy in Ly, Uy.
  change (2 ^ (prec - 1)) with (2 ^ 52) in *. change (2 ^ prec) with (2 ^ 53) in *.
  (* the quotient of the mantissas lies between 1/2 and 2 *)
  assert (Px : (0 < F2R (Zpos mx) ex)%R) by (apply F2R_pos; lia).
  assert (Py : (0 < F2R (Zpos my) ey)%R) by (apply F2R_pos; lia).
  assert (Hq : (F2R (Zpos mx) ex / F2R (Zpos my) ey
                = IZR (Zpos mx) / IZR (Zpos my) * powerRZ 2 (ex - ey))%R).
  { unfold F2R. replace (ex - ey) with (ex + - ey) by lia.
    rewrite pow2_add, powerRZ_neg'. field.
    split; [apply Rgt_not_eq, pow2_pos | apply Rgt_not_eq, IZR_lt; lia]. }
  assert (Hr : (/ 2 < IZR (Zpos mx) / IZR (Zpos my) < 2)%R).
  { assert (A1 : (IZR (2 ^ 52) <= IZR (Zpos mx))%R) by (apply IZR_le; lia).
    assert (A2 : (IZR (Zpos mx) < 2 * IZR (2 ^ 52))%R)
      by (rewrite <- mult_IZR; apply IZR_lt; lia).
    assert (B1 : (IZR (2 ^ 52) <= IZR (Zpos my))%R) by (apply IZR_le; lia).
    assert (B2 : (IZR (Zpos my) < 2 * IZR (2 ^ 52))%R)
      by (rewrite <- mult_IZR; apply IZR_lt; lia).
    assert (C : (0 < IZR (2 ^ 52))%R) by (apply IZR_lt; reflexivity).
    set (a := IZR (Zpos mx)) in *. set (b := IZR (Zpos my)) in *.
    set (c := IZR (2 ^ 52)) in *. clearbody a b c.
    split.
    - apply Rmult_lt_reg_r with b; [lra|]. unfold Rdiv.
      rewrite Rmult_assoc, Rinv_l by lra. lra.
    - apply Rmult_lt_reg_r with b; [lra|]. unfold Rdiv.
      rewrite Rmult_assoc, Rinv_l by lra. lra. }
  assert (Re : -1001 < ex - ey < 1001).
  { rewrite Hq in Hlo, Hhi. pose proof (pow2_pos (ex - ey)) as Pe.
    split.
    - destruct (Z_lt_le_dec (-1001) (ex - ey)) as [|G]; trivial.
      assert (powerRZ 2 (ex - ey + 1) <= powerRZ 2 (-1000))%R
        by (apply pow2_le; lia).
      rewrite pow2_add in H.
      replace (powerRZ 2 1) with 2%R in H by (simpl; ring).
      set (r := (IZR (Zpos mx) / IZR (Zpos my))%R) in *. clearbody r.
      hide_pow2. nra.
    - destruct (Z_lt_le_dec (ex - ey) 1001) as [|G]; trivial.
      assert (powerRZ 2 1000 <= powerRZ 2 (ex - ey + -1))%R
        by (apply pow2_le; lia).
      rewrite pow2_add in H.
      replace (powerRZ 2 (-1)) with (/ 2)%R in H by (simpl; field).
      set (r := (IZR (Zpos mx) / IZR (Zpos my))%R) in *. clearbody r.
      hide_pow2. nra. }
  set (e' := Z.min (fexp prec emax (prec + ex - (prec + ey))) (ex - ey)).
  assert (He' : e' = ex - ey - 53).
  { unfold e', fexp, SpecFloat.emin, prec, emax in *. lia. }
  replace (ex - ey - e') with 53 by lia.
  rewrite Z.shiftl_mul_pow2 by lia.
  set (m' := Zpos mx * 2 ^ 53).
  pose proof (Z.div_mod m' (Zpos my) ltac:(lia)) as DM.
  pose proof (Z.mod_pos_bound m' (Zpos my) ltac:(lia)) as MB.
  unfold Z.div, Z.modulo in DM, MB.
  destruct (Z.div_eucl m' (Zpos my)) as [q r].
  assert (Hq52 : 2 ^ 52 <= q).
  { assert (2 ^ 52 * 2 ^ 53 <= m') by (unfold m'; nia).
    destruct (Z_lt_le_dec q (2 ^ 52)) as [G|]; trivial. nia. }
  destruct q as [|q|q]; try (simpl in Hq52; lia).
  apply round_normal.
  - destruct (digits2_bounds q) as [_ U].
    destruct (Z_lt_le_dec (Zpos (digits2_pos q)) prec) as [G|]; trivial.
    assert (2 ^ Zpos (digits2_pos q) <= 2 ^ (prec - 1))
      by (apply Z.pow_le_mono_r; lia).
    change (2 ^ (prec - 1)) with (2 ^ 52) in *. lia.
  - (* q <= m' / my < q + 1 *)
    assert (Hv : (F2R (Zpos mx) ex / F2R (Zpos my) ey
                  = IZR m' / IZR (Zpos my) * powerRZ 2 e')%R).
    { rewrite Hq. unfold m'. rewrite mult_IZR, pow2_IZR by lia.
      replace (ex - ey) with (53 + e') by lia. rewrite pow2_add. field.
      apply Rgt_not_eq, IZR_lt; lia. }
    rewrite Hv. unfold F2R.
    assert (Pm : (0 < IZR (Zpos my))%R) by (apply IZR_lt; lia).
    assert (B1 : (IZR (Zpos q) * IZR (Zpos my) <= IZR m')%R)
      by (rewrite <- mult_IZR; apply IZR_le; lia).
    assert (B2 : (IZR m' <= IZR (Zpos q + 1) * IZR (Zpos my))%R)
      by (rewrite <- mult_IZR; apply IZR_le; lia).
    pose proof (pow2_pos e') as Pe.
    split; apply Rmult_le_compat_r; try lra.
    + apply Rmult_le_reg_r with (IZR (Zpos my)); trivial.
      unfold Rdiv. rewrite Rmult_assoc, Rinv_l by lra. lra.
    + apply Rmult_le_reg_r with (IZR (Zpos my)); trivial.
      unfold Rdiv. rewrite Rmult_assoc, Rinv_l by lra. lra.
  - eapply Rlt_trans; [|exact Hlo]. apply pow2_lt. lia.
  - eapply Rlt_le_trans; [exact Hhi|].
    eapply Rle_trans; [|apply largest_above]. apply pow2_le. lia.
Qed.

(** *** Comparison *)

Lemma bounded_canonical (m : positive) (e : Z) :
  SpecFloat.bounded prec emax m e = true ->
  e = fexp prec emax (Zpos (digits2_pos m) + e) /\ e <= emax - prec.
Proof.
  unfold SpecFloat.bounded, canonical_mantissa. intros H.
  apply andb_true_iff in H as [H1 H2].
  apply Z.eqb_eq in H1. apply Z.leb_le in H2. split; [now symmetry | exact H2].
Qed.

(** On the positive numbers of the format, [<=] is the order of the
    values. *)
Lemma SFleb_le (m1 m2 : positive) (e1 e2 : Z) :
  SpecFloat.bounded prec emax m1 e1 = true -> SpecFloat.bounded prec emax m2 e2 = true ->
  SFleb (S754_finite false m1 e1) (S754_finite false m2 e2) = true ->
  (F2R (Zpos m1) e1 <= F2R (Zpos m2) e2)%R.
Proof.
  intros B1 B2. apply bounded_canonical in B1 as [C1 _], B2 as [C2 _].
  unfold SFleb, SFcompare.
  destruct (Z.compare_spec e1 e2) as [E|L|G]; try discriminate.
  - subst e2. intros H. apply F2R_le.
    assert ((m1 ?= m2)%positive <> Gt).
    { unfold Pos.compare. destruct (Pos.compare_cont Eq m1 m2); discriminate. }
    apply Pos2Z.pos_le_pos. exact H0.
  - intros _.
    pose proof (F2R_digits_upper m1 e1) as U.
    pose proof (F2R_digits_lower m2 e2) as Lw.
    assert (Zpos (digits2_pos m1) + e1 <= Zpos (digits2_pos m2) - 1 + e2).
    { unfold fexp in C1, C2. lia. }
    apply pow2_le in H.
    assert (F2R (Zpos m1) e1 <= F2R (Zpos m1 + 1) e1)%R by (apply F2R_le; lia).
    lra.
Qed.

Lemma bounded_normal (m : positive) (e : Z) :
  SpecFloat.bounded prec emax m e = true ->
  (powerRZ 2 (-1022) < F2R (Zpos m) e)%R ->
  normal (S754_finite false m e).
Proof.
  intros B H. apply bounded_canonical in B as [C Hmax].
  exists m, e. split; trivial.
  pose proof (F2R_digits_upper m e) as U.
  assert (F2R (Zpos m) e <= F2R (Zpos m + 1) e)%R by (apply F2R_le; lia).
  assert (-1022 < Zpos (digits2_pos m) + e).
  { destruct (Z_lt_le_dec (-1022) (Zpos (digits2_pos m) + e)) as [|G]; trivial.
    apply pow2_le in G. lra. }
  unfold fexp, SpecFloat.emin, prec, emax in *. lia.
Qed.

(** *** Constants *)

Lemma ulp_small : (0 < powerRZ 2 (-52) <= 1 / 1000000000000000)%R.
Proof.
  split; [apply pow2_pos|].
  replace (powerRZ 2 (-52)) with (/ IZR (2 ^ 52))%R
    by (symmetry; apply (pow2_neg 52); lia). change (2 ^ 52) with 4503599627370496. lra.
Qed.

Lemma hundredth_value :
  (1 / 100 <= F2R 5764607523034235 (-59))%R.
Proof.
  unfold F2R. replace (powerRZ 2 (-59)) with (/ IZR (2 ^ 59))%R
    by (symmetry; apply (pow2_neg 59); lia).
  change (2 ^ 59) with 576460752303423488. lra.
Qed.

Lemma eps_value :
  (0 < F2R 6044629098073146 (-79) <= 10000001 / 1000000000000000)%R.
Proof.
  unfold F2R. replace (powerRZ 2 (-79)) with (/ IZR (2 ^ 79))%R
    by (symmetry; apply (pow2_neg 79); lia).
  change (2 ^ 79) with 604462909807314587353088. lra.
Qed.

End Rounding.

Module SelfScore.
Import SF Rounding.
Local Open Scope R_scope.

(** *** The error of the score *)

Lemma near_bounds (v x : R) :
  0 <= x -> near v x ->
  x * (1 - 1 / 1000000000000000) <= v <= x * (1 + 1 / 1000000000000000).
Proof.
  intros Hx [H1 H2]. destruct ulp_small as [U1 U2].
  set (u := powerRZ 2 (-52)) in *. clearbody u.
  assert (x * u <= x * (1 / 1000000000000000))
    by (apply Rmult_le_compat_l; trivial).
  lra.
Qed.

Lemma square_bounds (y n a b : R) :
  0 <= a -> 0 <= y -> y * a <= n <= y * b ->
  (y * y) * (a * a) <= n * n <= (y * y) * (b * b).
Proof.
  intros Ha Hy [H1 H2].
  assert (0 <= y * a) by (apply Rmult_le_pos; trivial).
  split.
  - replace (y * y * (a * a)) with ((y * a) * (y * a)) by ring.
    apply Rmult_le_compat; lra.
  - replace (y * y * (b * b)) with ((y * b) * (y * b)) by ring.
    apply Rmult_le_compat; lra.
Qed.

Lemma quotient_bounds (s d lo hi : R) :
  0 < s -> 0 < lo -> s * lo <= d <= s * hi ->
  / hi <= s / d <= / lo.
Proof.
  intros Hs Hlo [H1 H2].
  assert (Hd : 0 < d).
  { apply Rlt_le_trans with (s * lo); trivial. now apply Rmult_lt_0_compat. }
  assert (Hhi : 0 < hi).
  { destruct (Rlt_le_dec 0 hi) as [|G]; trivial.
    assert (s * hi <= 0) by (apply Rmult_le_0_lt_compat_neg || nra). lra. }
  split.
  - apply Rmult_le_reg_r with d; trivial.
    unfold Rdiv. rewrite (Rmult_assoc s), Rinv_l, Rmult_1_r by lra.
    apply Rmult_le_reg_l with hi; trivial.
    rewrite <- Rmult_assoc, Rinv_r, Rmult_1_l by lra. lra.
  - apply Rmult_le_reg_r with d; trivial.
    unfold Rdiv. rewrite (Rmult_assoc s), Rinv_l, Rmult_1_r by lra.
    apply Rmult_le_reg_l with lo; trivial.
    rewrite <- Rmult_assoc, Rinv_r, Rmult_1_l by lra. lra.
Qed.

Lemma small_powers :
  powerRZ 2 (-1000) < 1 / 1024 /\ powerRZ 2 (-1022) < 1 / 1024.
Proof.
  assert (E : powerRZ 2 (-10) = 1 / 1024).
  { replace (powerRZ 2 (-10)) with (/ IZR (2 ^ 10))
      by (symmetry; apply (pow2_neg 10); lia).
    change (2 ^ 10)%Z with 1024%Z. lra. }
  rewrite <- E. split; apply pow2_lt; lia.
Qed.

Lemma large_powers :
  4 * powerRZ 2 1000 <= powerRZ 2 1023 /\ 4 <= powerRZ 2 1000.
Proof.
  assert (E : powerRZ 2 2 = 4) by (simpl; ring).
  rewrite <- E. split.
  - rewrite <- pow2_add. apply pow2_le. lia.
  - apply pow2_le. lia.
Qed.

Lemma eps_normal : normal eps_sf.
Proof.
  exists 6044629098073146%positive, (-79)%Z.
  repeat split; vm_compute; congruence.
Qed.

(** *** The square of the norm

    The norm is below [2^512]; its square is rounded below the largest
    number of the format. *)
Lemma square_near (m : positive) (e : Z) :
  let n := S754_finite false m e in
  normal n -> (e <= 459)%Z ->
  powerRZ 2 (-1022) < SF2R n * SF2R n ->
  normal (SF64mul n n) /\
  near (SF2R (SF64mul n n)) (SF2R n * SF2R n) /\
  SF2R (SF64mul n n) <= F2R 9007199254740990 971.
Proof.
  intros n Hn He Hlo.
  assert (Hu : powerRZ 2 (-52) = / 4503599627370496).
  { replace (powerRZ 2 (-52)) with (/ IZR (2 ^ 52))
      by (symmetry; apply (pow2_neg 52); lia). reflexivity. }
  assert (T : F2R 9007199254740990 971 = 81129638414606663681390495662080 * powerRZ 2 918).
  { unfold F2R. replace 971%Z with (53 + 918)%Z by lia.
    rewrite pow2_add, <- (pow2_IZR 53) by lia.
    change (2 ^ 53)%Z with 9007199254740992%Z. ring. }
  assert (TL : largest = 81129638414606672688589750403072 * powerRZ 2 918).
  { unfold largest, F2R. replace 971%Z with (53 + 918)%Z by lia.
    rewrite pow2_add, <- (pow2_IZR 53) by lia.
    change (2 ^ 53)%Z with 9007199254740992%Z. ring. }
  pose proof (pow2_pos 918) as Pt.
  destruct (Z.eq_dec e 459) as [E459|Ne];
    [destruct (Pos.eq_dec m 9007199254740991) as [Em|Nm]|].
  - (* the largest norm *)
    subst m e. unfold n.
    change (SF64mul (S754_finite false 9007199254740991 459)
              (S754_finite false 9007199254740991 459))
      with (S754_finite false 9007199254740990 971).
    split; [exists 9007199254740990%positive, 971%Z; repeat split;
            vm_compute; congruence|].
    split; [|apply Rle_refl].
    unfold near. cbn [SF2R]. rewrite T, Hu.
    assert (F2R 9007199254740991 459 * F2R 9007199254740991 459
            = 81129638414606663681390495662081 * powerRZ 2 918) as ->.
    { rewrite <- F2R_mul. unfold F2R. reflexivity. }
    set (t := powerRZ 2 918) in *. clearbody t. lra.
  - (* a smaller mantissa *)
    subst e. destruct Hn as [m' [e' [En [Dm Hee]]]]. inversion En; subst m' e'.
    destruct (digits2_bounds m) as [_ Um]. rewrite Dm in Um.
    change (2 ^ prec)%Z with 9007199254740992%Z in Um.
    assert (HN : SF2R n <= F2R 9007199254740990 459)
      by (apply F2R_le; lia).
    assert (PN : 0 < SF2R n) by (apply F2R_pos; lia).
    assert (HNN : SF2R n * SF2R n
                  <= 81129638414606645666991986180100 * powerRZ 2 918).
    { replace (81129638414606645666991986180100 * powerRZ 2 918)
        with (F2R 9007199254740990 459 * F2R 9007199254740990 459)
        by (rewrite <- F2R_mul; unfold F2R; reflexivity).
      apply Rmult_le_compat; lra. }
    destruct (SFmul_near n n) as [Np Vp];
      [exists m, 459%Z; auto | exists m, 459%Z; auto | |].
    { split; trivial. rewrite TL. set (t := powerRZ 2 918) in *. clearbody t. lra. }
    split; trivial. split; trivial.
    destruct Vp as [_ Vp]. rewrite Hu in Vp. rewrite T.
    set (t := powerRZ 2 918) in *. clearbody t. lra.
  - (* a smaller exponent *)
    destruct Hn as [m' [e' [En [Dm Hee]]]]. inversion En; subst m' e'.
    destruct (digits2_bounds m) as [_ Um]. rewrite Dm in Um.
    change (2 ^ prec)%Z with 9007199254740992%Z in Um.
    assert (HN : SF2R n <= F2R 9007199254740990 459).
    { apply Rle_trans with (F2R 9007199254740991 458).
      - apply Rle_trans with (F2R 9007199254740991 e); [apply F2R_le; lia|].
        unfold F2R. apply Rmult_le_compat_l; [lra|]. apply pow2_le. lia.
      - replace 459%Z with (458 + 1)%Z by lia.
        rewrite <- (F2R_shift 9007199254740990 458 1) by lia.
        apply F2R_le. vm_compute. discriminate. }
    assert (PN : 0 < SF2R n) by (apply F2R_pos; lia).
    assert (HNN : SF2R n * SF2R n
                  <= 81129638414606645666991986180100 * powerRZ 2 918).
    { replace (81129638414606645666991986180100 * powerRZ 2 918)
        with (F2R 9007199254740990 459 * F2R 9007199254740990 459)
        by (rewrite <- F2R_mul; unfold F2R; reflexivity).
      apply Rmult_le_compat; lra. }
    destruct (SFmul_near n n) as [Np Vp];
      [exists m, e; auto | exists m, e; auto | |].
    { split; trivial. rewrite TL. set (t := powerRZ 2 918) in *. clearbody t. lra. }
    split; trivial. split; trivial.
    destruct Vp as [_ Vp]. rewrite Hu in Vp. rewrite T.
    set (t := powerRZ 2 918) in *. clearbody t. lra.
Qed.

(** The score of a vector against itself, on the numbers of the format:
    [s] is the squared norm. *)
Lemma self_score_near (s : spec_float) :
  normal s ->
  1 / 100 <= SF2R s ->
  normal (SF64div s (SF64add (SF64mul (SF64sqrt s) (SF64sqrt s)) eps_sf)) /\
  Rabs (SF2R (SF64div s (SF64add (SF64mul (SF64sqrt s) (SF64sqrt s)) eps_sf)) - 1)
  <= 1 / 1000000.
Proof.
  intros Hn Hlo.
  destruct small_powers as [K1 K2]. destruct large_powers as [K3 K4].
  set (S := SF2R s) in *.
  assert (HS : 0 <= S) by lra.
  (* the norm *)
  destruct (SFsqrt_near s Hn) as [Nn [Vn [m [e [En He]]]]]; [fold S; lra|].
  fold S in Vn.
  pose proof (sqrt_sqrt S HS) as Hyy. pose proof (sqrt_pos S) as Hy.
  set (y := R_sqrt.sqrt S) in *. clearbody y.
  apply near_bounds in Vn; trivial.
  rewrite En in *.
  set (n := S754_finite false m e) in *. set (N := SF2R n) in *.
  pose proof (square_bounds y N (1 - 1 / 1000000000000000)
                (1 + 1 / 1000000000000000) ltac:(lra) Hy Vn) as Vnn.
  rewrite Hyy in Vnn.
  (* its square *)
  destruct (square_near m e Nn He) as [Np [Vp Up]]; [fold n N; lra|].
  fold n N in Vp, Up, Np.
  apply near_bounds in Vp; [|lra].
  set (p := SF64mul n n) in *. set (P := SF2R p) in *.
  (* the denominator *)
  pose proof eps_value as HE.
  change (F2R 6044629098073146 (-79)) with (SF2R eps_sf) in HE.
  destruct (SFadd_near p eps_sf Np eps_normal) as [Nd Vd].
  { fold P. unfold largest. unfold F2R in *.
    assert (1 <= powerRZ 2 971).
    { change 1 with (powerRZ 2 0). apply pow2_le. lia. }
    set (t := powerRZ 2 971) in *. clearbody t. lra. }
  fold P in Vd. apply near_bounds in Vd; [|lra].
  set (E := SF2R eps_sf) in *. clearbody E.
  set (d := SF64add p eps_sf) in *. set (D := SF2R d) in *.
  (* the quotient *)
  assert (HD : S * (1 - 5 / 1000000000000000) <= D
               <= S * (1 + 1000000110 / 1000000000000000)) by lra.
  pose proof (quotient_bounds S D (1 - 5 / 1000000000000000)
                (1 + 1000000110 / 1000000000000000)
                ltac:(lra) ltac:(lra) HD) as HQ.
  destruct (SFdiv_near s d Hn Nd) as [Nr Vr]; [fold S D; lra|]. fold S D in Vr.
  apply near_bounds in Vr; [|lra].
  split; [exact Nr|].
  set (Q := S / D) in *. clearbody Q.
  set (R := SF2R (SF64div s d)) in *. clearbody R.
  apply Rabs_le. lra.
Qed.

Lemma normal_is_finite (x : float) : normal (Prim2SF x) -> is_finite x = true.
Proof.
  intros [m [e [E _]]]. unfold is_finite, is_nan, is_infinity.
  rewrite !eqb_spec, abs_spec, E. cbn [SFabs].
  change (Prim2SF infinity) with (S754_infinity false).
  unfold SFeqb, SFcompare. rewrite Z.compare_refl.
  change (PosDef.Pos.compare_cont Eq m m) with (m ?= m)%positive.
  now rewrite Pos.compare_refl.
Qed.

(** A finite squared norm of at least [0.01] is a positive normal number
    of the format, and at least [1/100]. *)
Lemma squared_norm_range (s : float) :
  is_finite s = true ->
  (0.01 <=? s)%float = true ->
  normal (Prim2SF s) /\ 1 / 100 <= to_R s.
Proof.
  intros Hf H1. apply Binary64.is_finite_sf in Hf.
  rewrite leb_spec in H1. unfold to_R.
  pose proof (Prim2SF_valid s) as V.
  change (Prim2SF 0.01) with (S754_finite false 5764607523034235 (-59)) in H1.
  destruct (Prim2SF s) as [[]|[]| |[] m e]; try discriminate; try contradiction.
  cbn [valid_binary] in V.
  apply SFleb_le in H1; trivial.
  cbn [SF2R].
  pose proof hundredth_value.
  destruct small_powers as [_ K].
  split; [|lra]. apply bounded_normal; trivial. lra.
Qed.
End SelfScore.

(** C8 (as amended).  In binary64, a vector whose squared norm, as the
    code computes it, is finite and at least [0.01] scores within [1e-6]
    of [1] against itself: the call returns a finite number [r] with
    [|r - 1| <= 1e-6]. *)
Theorem self_similarity_binary64 (v : list float) :
  let s := Formula.sum_squares_from 0%float v in
  is_finite s = true ->
  (0.01 <=? s)%float = true ->
  exists r, cosine_similarity v v = Return r /\
            is_finite r = true /\
            (Rabs (to_R r - 1) <= 1 / 1000000)%R.
Proof.
  intros s H1 H2.
  destruct (SelfScore.squared_norm_range s H1 H2) as [Hn Hr].
  rewrite cosine_similarity_returns. eexists. split; [reflexivity|].
  assert (E : Prim2SF (Formula.similarity v v)
              = SF64div (Prim2SF s)
                  (SF64add (SF64mul (SF64sqrt (Prim2SF s)) (SF64sqrt (Prim2SF s)))
                     SF.eps_sf)).
  { unfold Formula.similarity, Formula.dot, Formula.norm.
    rewrite dot_from_self. cbn [div add mul sqrt eps zero binary64]. fold s.
    now rewrite div_spec, add_spec, mul_spec, sqrt_spec. }
  destruct (SelfScore.self_score_near (Prim2SF s) Hn Hr) as [N B].
  rewrite <- E in N, B.
  split; [now apply SelfScore.normal_is_finite | exact B].
Qed.

Lemma self_similarity_binary64_witness :
  exists r, cosine_similarity [1; 2; 2]%float [1; 2; 2]%float = Return r /\
            is_finite r = true /\
            (Rabs (to_R r - 1) <= 1 / 1000000)%R.
Proof.
  apply (self_similarity_binary64 [1; 2; 2]%float); reflexivity.
Defined.

(** * The vectorizer *)

(** ** The order on strings *)

Lemma str_compare_eq a b : str_compare a b = Eq <-> a = b.
Proof.
  revert b. induction a as [|x a IH]; intros [|y b]; simpl;
    try (split; [discriminate | discriminate]); try tauto.
  destruct (N.compare_spec x y) as [E|L|G].
  - subst. rewrite IH. split; congruence.
  - split; [discriminate|]. intros H; inversion H; subst. lia.
  - split; [discriminate|]. intros H; inversion H; subst. lia.
Qed.

Lemma str_compare_antisym a b : str_compare b a = CompOpp (str_compare a b).
Proof.
  revert b. induction a as [|x a IH]; intros [|y b]; simpl; trivial.
  rewrite (N.compare_antisym x y).
  destruct (N.compare x y); simpl; auto.
Qed.

Lemma str_ltb_lt a b : str_ltb a b = true <-> str_lt a b.
Proof.
  unfold str_ltb. split.
  - revert b. induction a as [|x a IH]; intros [|y b]; simpl; try discriminate.
    + constructor.
    + destruct (N.compare_spec x y) as [E|L|G]; try discriminate.
      * subst. intros H. apply str_lt_tail. auto.
      * intros _. now apply str_lt_head.
  - induction 1 as [y b|x y a b L|x a b _ IH]; simpl; trivial.
    + apply N.compare_lt_iff in L. now rewrite L.
    + now rewrite N.compare_refl.
Qed.

Lemma str_lt_irrefl a : ~ str_lt a a.
Proof.
  intros H. apply str_ltb_lt in H. unfold str_ltb in H.
  now rewrite (proj2 (str_compare_eq a a) eq_refl) in H.
Qed.

Lemma str_lt_trans a b c : str_lt a b -> str_lt b c -> str_lt a c.
Proof.
  intros H. revert c. induction H as [y b|x y a b L|x a b _ IH]; intros c Hc;
    inversion Hc; subst.
  - apply str_lt_nil.
  - apply str_lt_nil.
  - apply str_lt_head. lia.
  - now apply str_lt_head.
  - now apply str_lt_head.
  - apply str_lt_tail. auto.
Qed.

Lemma str_lt_total a b : str_lt a b \/ a = b \/ str_lt b a.
Proof.
  destruct (str_compare a b) eqn:E.
  - right; left. now apply str_compare_eq.
  - left. apply str_ltb_lt. unfold str_ltb. now rewrite E.
  - right; right. apply str_ltb_lt. unfold str_ltb.
    now rewrite str_compare_antisym, E.
Qed.

Lemma str_ltb_false a b : str_ltb a b = false <-> a = b \/ str_lt b a.
Proof.
  split.
  - intros H. destruct (str_lt_total a b) as [L|[E|G]]; auto.
    apply str_ltb_lt in L. congruence.
  - intros [E|G]; destruct (str_ltb a b) eqn:L; trivial; apply str_ltb_lt in L.
    + subst. now apply str_lt_irrefl in L.
    + exfalso. apply (str_lt_irrefl a). eauto using str_lt_trans.
Qed.

(** ** [sorted] *)

Lemma insert_perm {A} (ltb : A -> A -> bool) x l :
  Permutation (x :: l) (insert ltb x l).
Proof.
  induction l as [|y l IH]; simpl; auto.
  destruct (ltb y x); auto.
  rewrite perm_swap. auto.
Qed.

Lemma sorted_perm {A} (ltb : A -> A -> bool) l : Permutation l (sorted ltb l).
Proof.
  induction l as [|x l IH]; simpl; auto.
  rewrite <- insert_perm. auto.
Qed.

Lemma insert_str_sorted x l :
  ~ In x l -> StronglySorted str_lt l -> StronglySorted str_lt (insert str_ltb x l).
Proof.
  intros Hx H. induction H as [|y l Hl IH Hy]; simpl.
  - repeat constructor.
  - destruct (str_ltb y x) eqn:E.
    + constructor.
      * apply IH. intros Hin. apply Hx. now right.
      * apply Forall_forall. intros z Hz.
        apply (Permutation_in _ (Permutation_sym (insert_perm str_ltb x l))) in Hz.
        destruct Hz as [<-|Hz]; [now apply str_ltb_lt|].
        rewrite Forall_forall in Hy. auto.
    + apply str_ltb_false in E. destruct E as [E|E].
      { subst. exfalso. apply Hx. now left. }
      constructor; [now constructor|].
      constructor; trivial.
      apply Forall_forall. intros z Hz. rewrite Forall_forall in Hy.
      eauto using str_lt_trans.
Qed.

Lemma sorted_str_sorted l : NoDup l -> StronglySorted str_lt (sorted str_ltb l).
Proof.
  induction 1 as [|x l Hx Hl IH]; simpl; [constructor|].
  apply insert_str_sorted; trivial.
  intros Hin. apply Hx.
  apply (Permutation_in _ (Permutation_sym (sorted_perm str_ltb l))). trivial.
Qed.

(** A strictly increasing list is determined by its elements. *)
Lemma str_sorted_unique l1 l2 :
  StronglySorted str_lt l1 -> StronglySorted str_lt l2 ->
  (forall w, In w l1 <-> In w l2) -> l1 = l2.
Proof.
  intros H1. revert l2. induction H1 as [|x l1 Hl1 IH Hx]; intros l2 H2 H.
  - destruct l2 as [|y l2]; trivial. exfalso. apply (H y). now left.
  - destruct H2 as [|y l2 Hl2 Hy].
    + exfalso. apply (H x). now left.
    + rewrite Forall_forall in Hx, Hy.
      assert (x = y).
      { destruct (proj1 (H x) (or_introl eq_refl)) as [E|Hin]; [auto|].
        destruct (proj2 (H y) (or_introl eq_refl)) as [E|Hin']; [auto|].
        exfalso. apply (str_lt_irrefl x). eauto using str_lt_trans. }
      subst y. f_equal. apply IH; trivial.
      intros w. split; intros Hw.
      * destruct (proj1 (H w) (or_intror Hw)) as [E|Hin]; trivial.
        subst w. exfalso. apply (str_lt_irrefl x). auto.
      * destruct (proj2 (H w) (or_intror Hw)) as [E|Hin]; trivial.
        subst w. exfalso. apply (str_lt_irrefl x). auto.
Qed.

Lemma str_sorted_NoDup l : StronglySorted str_lt l -> NoDup l.
Proof.
  induction 1 as [|x l Hl IH Hx]; constructor; trivial.
  intros Hin. rewrite Forall_forall in Hx. apply (str_lt_irrefl x). auto.
Qed.

(** ** [Counter] *)

Lemma dict_get_set d k v k' def :
  dict_get (dict_set d k v) k' def
  = if str_eq_dec k k' then v else dict_get d k' def.
Proof.
  induction d as [|[k0 v0] d IH]; simpl.
  - destruct (str_eq_dec k k'); trivial.
  - destruct (str_eq_dec k0 k) as [E|E]; simpl.
    + subst k0. destruct (str_eq_dec k k'); trivial.
    + destruct (str_eq_dec k0 k') as [E'|E']; trivial.
      subst k0. destruct (str_eq_dec k k'); congruence.
Qed.

Lemma keys_set d k v :
  keys (dict_set d k v)
  = if in_dec str_eq_dec k (keys d) then keys d else keys d ++ [k].
Proof.
  unfold keys. induction d as [|[k0 v0] d IH]; simpl; trivial.
  destruct (str_eq_dec k0 k) as [E|E]; simpl; trivial.
  rewrite IH. destruct (in_dec str_eq_dec k (map fst d)); trivial.
Qed.

Lemma Counter_from_get toks d w :
  dict_get (fold_left (fun d t => dict_set d t (dict_get d t 0 + 1)%Z) toks d) w 0
  = (dict_get d w 0 + Z.of_nat (count_occ str_eq_dec toks w))%Z.
Proof.
  revert d. induction toks as [|t toks IH]; intros d; simpl; [lia|].
  rewrite IH, dict_get_set.
  destruct (str_eq_dec t w); subst; lia.
Qed.

(** [freqs.get(word, 0)] is the number of occurrences of [word]. *)
Lemma Counter_get toks w :
  dict_get (Counter toks) w 0 = Z.of_nat (count_occ str_eq_dec toks w).
Proof. unfold Counter. now rewrite Counter_from_get. Qed.

Lemma Counter_from_keys toks d :
  NoDup (keys d) ->
  NoDup (keys (fold_left (fun d t => dict_set d t (dict_get d t 0 + 1)%Z) toks d)) /\
  forall w, In w (keys (fold_left (fun d t => dict_set d t (dict_get d t 0 + 1)%Z) toks d))
            <-> In w (keys d) \/ In w toks.
Proof.
  revert d. induction toks as [|t toks IH]; intros d Hd; simpl; [tauto|].
  set (d' := dict_set d t (dict_get d t 0 + 1)%Z).
  assert (Hk : keys d' = if in_dec str_eq_dec t (keys d) then keys d else keys d ++ [t])
    by apply keys_set.
  assert (Hd' : NoDup (keys d')).
  { rewrite Hk. destruct (in_dec str_eq_dec t (keys d)) as [i|n]; trivial.
    apply NoDup_app; trivial.
    - repeat constructor. intros [].
    - intros a Ha [<-|[]]. auto. }
  destruct (IH d' Hd') as [H1 H2]. split; trivial.
  intros w. rewrite H2, Hk.
  destruct (in_dec str_eq_dec t (keys d)) as [i|n].
  - intuition (subst; auto).
  - rewrite in_app_iff. simpl. intuition (subst; auto).
Qed.

(** [freqs.keys()]: the distinct tokens. *)
Lemma Counter_keys toks :
  NoDup (keys (Counter toks)) /\
  forall w, In w (keys (Counter toks)) <-> In w toks.
Proof.
  destruct (Counter_from_keys toks [] (NoDup_nil _)) as [H1 H2].
  split; trivial. intros w. rewrite H2. simpl. tauto.
Qed.

(** ** [re.findall] *)

Section FindallFacts.
Variable is_word : codepoint -> bool.

Lemma scan_run w cur s :
  Forall (fun c => is_word c = true) w ->
  scan is_word cur (w ++ s) = scan is_word (rev w ++ cur) s.
Proof.
  intros H. revert cur. induction H as [|c w Hc _ IH]; intros cur; simpl; trivial.
  rewrite Hc, IH, <- app_assoc. reflexivity.
Qed.

Lemma scan_boundary cur s :
  cur <> [] -> boundary is_word s ->
  scan is_word cur s = rev cur :: scan is_word [] s.
Proof.
  intros Hcur Hs. destruct cur as [|c0 cur]; [congruence|].
  destruct s as [|c s]; simpl in *; trivial.
  now rewrite Hs.
Qed.

(** The matches are the maximal runs of word characters... *)
Lemma scan_word_runs s : forall cur,
  Forall (fun c => is_word c = true) cur ->
  word_runs is_word (rev cur ++ s) (scan is_word cur s).
Proof.
  induction s as [|c s IH]; intros cur Hcur; simpl.
  - destruct cur as [|c0 cur]; [constructor|].
    apply runs_word; try constructor.
    + intros E. apply (f_equal (@length _)) in E.
      simpl in E. rewrite length_app in E. simpl in E. lia.
    + apply Forall_rev in Hcur. exact Hcur.
  - destruct (is_word c) eqn:Ec.
    + specialize (IH (c :: cur) (Forall_cons _ Ec Hcur)).
      simpl in IH. now rewrite <- app_assoc in IH.
    + assert (Hs : word_runs is_word (c :: s) (scan is_word [] s))
        by (apply runs_skip; [trivial | apply (IH [] (Forall_nil _))]).
      destruct cur as [|c0 cur]; [exact Hs|].
      apply runs_word; trivial.
      * intros E. apply (f_equal (@length _)) in E.
        simpl in E. rewrite length_app in E. simpl in E. lia.
      * apply Forall_rev in Hcur. exact Hcur.
Qed.

Lemma findall_word_runs s : word_runs is_word s (findall_words is_word s).
Proof. apply (scan_word_runs s [] (Forall_nil _)). Qed.

(** ... and nothing else is. *)
Lemma word_runs_findall s ws :
  word_runs is_word s ws -> findall_words is_word s = ws.
Proof.
  unfold findall_words.
  induction 1 as [|c s ws Hc _ IH|w s ws Hw Hall Hb _ IH]; simpl; trivial.
  - now rewrite Hc.
  - rewrite scan_run, app_nil_r, scan_boundary, rev_involutive, IH; trivial.
    intros E. apply Hw. apply (f_equal (@rev _)) in E.
    now rewrite rev_involutive in E.
Qed.

Lemma word_runs_words s ws :
  word_runs is_word s ws ->
  Forall (fun w => w <> [] /\ Forall (fun c => is_word c = true) w) ws.
Proof. induction 1; auto. Qed.
End FindallFacts.

(** ** [text_to_vector] *)

Section VectorizerFacts.
Variable lower : str -> str.
Variable is_word : codepoint -> bool.

Lemma vector_entry toks V i w :
  nth_error V i = Some w ->
  nth_error (map (fun word => float_of_int (dict_get (Counter toks) word 0)) V) i
  = Some (frequency toks w).
Proof.
  intros H. rewrite nth_error_map, H. simpl. unfold frequency.
  now rewrite Counter_get.
Qed.

(** C1.  With a vocabulary [V], the vector has the length of [V], its
    entry for a term is the number of occurrences of the term among the
    tokens of the lowercased text ([0.0] when there is none), the
    vocabulary comes back as it was given, and the tokens outside [V] do
    not matter.  The tokens are the maximal runs of word characters of
    the lowercased text: the entries are the frequencies in every list
    of such runs, and there is one. *)
Theorem text_to_vector_with_vocabulary (T : str) (V : list str) :
  let toks := tokens lower is_word T in
  let '(vector, vocab) := text_to_vector lower is_word T (Some V) in
  word_runs is_word (lower T) toks /\
  (forall runs, word_runs is_word (lower T) runs ->
     forall i w, nth_error V i = Some w ->
       nth_error vector i = Some (frequency runs w)) /\
  vocab = V /\
  length vector = length V /\
  (forall i w, nth_error V i = Some w ->
     nth_error vector i = Some (frequency toks w)) /\
  (forall i w, nth_error V i = Some w -> ~ In w toks ->
     nth_error vector i = Some 0%float) /\
  (forall T',
     (forall w, In w V ->
        frequency (tokens lower is_word T') w = frequency toks w) ->
     fst (text_to_vector lower is_word T' (Some V)) = vector).
Proof.
  simpl.
  split; [apply findall_word_runs|].
  split.
  { intros runs Hr i w H. apply word_runs_findall in Hr. subst runs.
    now apply vector_entry. }
  repeat split.
  - apply length_map.
  - intros i w H. now apply vector_entry.
  - intros i w H Hn. rewrite (vector_entry _ _ _ _ H). unfold frequency.
    apply (count_occ_not_In str_eq_dec) in Hn. now rewrite Hn.
  - intros T' H. apply map_ext_in. intros w Hw.
    specialize (H w Hw). unfold frequency in H. now rewrite !Counter_get.
Qed.

(** C5.  Without a vocabulary, the tokens are the maximal runs of word
    characters of the lowercased text; the vocabulary returned is the
    strictly increasing sequence, in the code-point order of strings, of
    the distinct tokens (the only such sequence); and the vector lists
    the number of occurrences of each, in that order. *)
Theorem text_to_vector_defines_vocabulary (T : str) :
  let toks := tokens lower is_word T in
  let '(vector, vocab) := text_to_vector lower is_word T None in
  word_runs is_word (lower T) toks /\
  Forall (fun w => w <> [] /\ Forall (fun c => is_word c = true) w) toks /\
  (forall w, In w vocab <-> In w toks) /\
  StronglySorted str_lt vocab /\
  NoDup vocab /\
  (forall l, StronglySorted str_lt l -> (forall w, In w l <-> In w toks) ->
             l = vocab) /\
  vector = map (frequency toks) vocab.
Proof.
  simpl.
  destruct (Counter_keys (tokens lower is_word T)) as [Hnd Hin].
  pose proof (sorted_str_sorted _ Hnd) as Hs.
  assert (Hv : forall w,
             In w (sorted str_ltb (keys (Counter (tokens lower is_word T))))
             <-> In w (tokens lower is_word T)).
  { intros w. rewrite <- Hin. split; apply Permutation_in;
      [apply Permutation_sym|]; apply sorted_perm. }
  split; [apply findall_word_runs|].
  split; [eapply word_runs_words, findall_word_runs|].
  split; [exact Hv|].
  split; [exact Hs|].
  split; [now apply str_sorted_NoDup|].
  split.
  - intros l Hl Hl'. apply str_sorted_unique; trivial.
    intros w. now rewrite Hl', Hv.
  - apply map_ext. intros w. unfold frequency. now rewrite Counter_get.
Qed.
End VectorizerFacts.

(** ** Purity *)

Section ObjFacts.
Variable lower : str -> str.
Variable is_word : codepoint -> bool.

Lemma deref_alloc h v : Obj.deref (snd (Obj.alloc h v)) (fst (Obj.alloc h v)) = v.
Proof.
  unfold Obj.deref, Obj.alloc. simpl.
  rewrite app_nth2 by lia. now rewrite Nat.sub_diag.
Qed.

(** The call's result, read as values, is the function of the text and
    of the contents of the vocabulary. *)
Lemma text_to_vector_ref_value T V h :
  let '((vector, vocab), h') := Obj.text_to_vector_ref lower is_word T V h in
  (vector, Obj.deref h' vocab)
  = text_to_vector lower is_word T (option_map (Obj.deref h) V).
Proof.
  unfold Obj.text_to_vector_ref, text_to_vector.
  destruct V as [l|]; simpl; trivial.
  pose proof (deref_alloc h (sorted str_ltb (keys (Counter (tokens lower is_word T)))))
    as E.
  simpl in E. now rewrite E.
Qed.

(** C6.  Two calls on the same text and on vocabularies of the same
    contents, in any two states of the heap, return the same vector and
    the same vocabulary; a call changes no object that existed before it
    (it only allocates the vocabulary that [sorted] builds), and with a
    vocabulary it leaves the heap as it was and returns the very object
    it was given. *)
Theorem text_to_vector_pure (T : str) (V1 V2 : option Obj.loc) (h1 h2 : Obj.heap) :
  option_map (Obj.deref h1) V1 = option_map (Obj.deref h2) V2 ->
  let '((vector1, vocab1), h1') := Obj.text_to_vector_ref lower is_word T V1 h1 in
  let '((vector2, vocab2), h2') := Obj.text_to_vector_ref lower is_word T V2 h2 in
  vector1 = vector2 /\
  Obj.deref h1' vocab1 = Obj.deref h2' vocab2 /\
  firstn (length h1) h1' = h1 /\
  (forall l, V1 = Some l -> h1' = h1 /\ vocab1 = l).
Proof.
  intros HV.
  pose proof (text_to_vector_ref_value T V1 h1) as E1.
  pose proof (text_to_vector_ref_value T V2 h2) as E2.
  rewrite <- HV in E2.
  destruct (Obj.text_to_vector_ref lower is_word T V1 h1)
    as [[vector1 vocab1] h1'] eqn:R1.
  destruct (Obj.text_to_vector_ref lower is_word T V2 h2)
    as [[vector2 vocab2] h2'] eqn:R2.
  rewrite <- E2 in E1. inversion E1; subst.
  repeat split; trivial.
  - unfold Obj.text_to_vector_ref in R1. destruct V1 as [l|]; simpl in R1.
    + inversion R1; subst. apply firstn_all.
    + inversion R1; subst. rewrite firstn_app, firstn_all, Nat.sub_diag.
      simpl. apply app_nil_r.
  - unfold Obj.text_to_vector_ref in R1. rewrite H in R1. simpl in R1.
    now inversion R1.
  - unfold Obj.text_to_vector_ref in R1. rewrite H in R1. simpl in R1.
    now inversion R1.
Qed.

End ObjFacts.

Lemma text_to_vector_pure_witness :
  let '((vector1, vocab1), h1') :=
    Obj.text_to_vector_ref AsciiText.lower AsciiText.is_word
      (lit "Rust, dust; rust") (Some 0%nat) [[lit "rust"; lit "iron"]] in
  let '((vector2, vocab2), h2') :=
    Obj.text_to_vector_ref AsciiText.lower AsciiText.is_word
      (lit "Rust, dust; rust") (Some 1%nat) [[]; [lit "rust"; lit "iron"]] in
  vector1 = vector2 /\
  Obj.deref h1' vocab1 = Obj.deref h2' vocab2 /\
  firstn 1 h1' = [[lit "rust"; lit "iron"]] /\
  (forall l, Some 0%nat = Some l -> h1' = [[lit "rust"; lit "iron"]] /\ vocab1 = l).
Proof.
  apply (text_to_vector_pure AsciiText.lower AsciiText.is_word
           (lit "Rust, dust; rust") (Some 0%nat) (Some 1%nat)
           [[lit "rust"; lit "iron"]] [[]; [lit "rust"; lit "iron"]]).
  reflexivity.
Defined.

(** ** The examples of the specification *)

Example vocabulary_of_doc1 :
  text_to_vector AsciiText.lower AsciiText.is_word (lit "alloy strength density") None
  = ([1; 1; 1]%float, [lit "alloy"; lit "density"; lit "strength"]).
Proof. reflexivity. Qed.

Example query_vector :
  text_to_vector AsciiText.lower AsciiText.is_word (lit "Strength, density!")
    (Some [lit "alloy"; lit "corrosion"; lit "density"; lit "strength"])
  = ([0; 0; 1; 1]%float,
     [lit "alloy"; lit "corrosion"; lit "density"; lit "strength"]).
Proof. reflexivity. Qed.

(** [main] vectorizes each response on its own, so two stored vectors
    need not have the same length. *)
Example stored_vectors_differ_in_length :
  length (fst (text_to_vector AsciiText.lower AsciiText.is_word
                 (lit "alloy strength density") None)) = 3%nat /\
  length (fst (text_to_vector AsciiText.lower AsciiText.is_word
                 (lit "density corrosion") None)) = 2%nat.
Proof. split; reflexivity. Qed.

(** * The order of scores *)

Module ScoreOrder.
Import SF.
Local Open Scope Z_scope.









End ScoreOrder.

(** * The ranker *)

Module RankerFacts.
Import Ranker.









Section Stability.
Variable s : float.



End Stability.





Lemma scores_length q cs : (length (scores q cs) <= length cs)%nat.
Proof.
  induction cs as [|c cs IH]; simpl; trivial.
  destruct (score q c); simpl; lia.
Qed.
End RankerFacts.


(** The example of the specification: the two documents tie on the query
    and come in insertion order. *)
Example rank_tie :
  Ranker.rank [0; 0; 1; 1]%float
    [(lit "doc1", [1; 0; 1; 1]%float); (lit "doc2", [0; 1; 1; 1]%float)] 2
  = [(lit "doc1", 0.81649657759439265%float);
     (lit "doc2", 0.81649657759439265%float)].
Proof. reflexivity. Qed.

(** * The store *)

Module VectorStoreFacts.
Import VectorStore.

Lemma put_ids r rs :
  map id (put r rs)
  = if in_dec str_eq_dec (id r) (map id rs) then map id rs else map id rs ++ [id r].
Proof.
  induction rs as [|r' rs IH]; simpl; trivial.
  destruct (str_eq_dec (id r') (id r)) as [E|E]; simpl.
  - now rewrite E.
  - rewrite IH. destruct (in_dec str_eq_dec (id r) (map id rs)); trivial.
Qed.

Lemma put_NoDup r rs : NoDup (map id rs) -> NoDup (map id (put r rs)).
Proof.
  intros H. rewrite put_ids.
  destruct (in_dec str_eq_dec (id r) (map id rs)) as [i|n]; trivial.
  apply NoDup_app; trivial.
  - repeat constructor. intros [].
  - intros a Ha [<-|[]]. auto.
Qed.

Lemma put_In r rs : In r (put r rs).
Proof.
  induction rs as [|r' rs IH]; simpl; auto.
  destruct (str_eq_dec (id r') (id r)); simpl; auto.
Qed.

Lemma put_other r rs r' :
  id r' <> id r -> (In r' (put r rs) <-> In r' rs).
Proof.
  intros Hne. induction rs as [|r0 rs IH]; simpl.
  - split; [intros [<-|[]]; congruence | tauto].
  - destruct (str_eq_dec (id r0) (id r)) as [E|E]; simpl.
    + split; intros [<-|H]; auto; congruence.
    + rewrite IH. tauto.
Qed.

Lemma NoDup_id_eq rs r1 r2 :
  NoDup (map id rs) -> In r1 rs -> In r2 rs -> id r1 = id r2 -> r1 = r2.
Proof.
  induction rs as [|r rs IH]; simpl; [tauto|].
  intros H [<-|H1] [<-|H2] E; inversion H; subst; auto.
  - exfalso. apply H3. rewrite E. now apply in_map.
  - exfalso. apply H3. rewrite <- E. now apply in_map.
Qed.

Lemma pad_length n v : (length v <= n)%nat -> length (pad n v) = n.
Proof.
  intros H. unfold pad. rewrite length_app, repeat_length. lia.
Qed.

Lemma pad_exact v : pad (length v) v = v.
Proof. unfold pad. rewrite Nat.sub_diag. apply app_nil_r. Qed.

Lemma reproject_length old new v : length (reproject old new v) = length new.
Proof. apply length_map. Qed.

Lemma index_of_None w l : index_of w l = None <-> ~ In w l.
Proof.
  induction l as [|w' l IH]; simpl; [tauto|].
  destruct (str_eq_dec w' w) as [E|E].
  - split; [discriminate | tauto].
  - destruct (index_of w l) as [j|]; simpl in *.
    + split; [discriminate|]. intros H. exfalso. apply H. right.
      destruct (in_dec str_eq_dec w l) as [i|n]; trivial.
      apply IH in n. discriminate.
    + split; trivial. intros _ [H|H]; [congruence|]. now apply IH.
Qed.

Lemma index_of_Some w l j : index_of w l = Some j -> nth_error l j = Some w.
Proof.
  revert j. induction l as [|w' l IH]; simpl; [discriminate|].
  intros j. destruct (str_eq_dec w' w) as [E|E].
  - intros H; inversion H; subst. reflexivity.
  - destruct (index_of w l) as [j'|]; simpl; [|discriminate].
    intros H; inversion H; subst. simpl. auto.
Qed.

Lemma reproject_entry old new v i w :
  nth_error new i = Some w ->
  nth_error (reproject old new v) i
  = Some (match index_of w old with
          | Some j => nth j v 0%float
          | None => 0%float
          end).
Proof.
  intros H. unfold reproject. now rewrite nth_error_map, H.
Qed.

Lemma upsert_inl i txt src v s s' :
  upsert i txt src v s = inl s' ->
  (length v <= length (vocabulary s))%nat /\
  s' = {| vocabulary := vocabulary s;
          records := put {| id := i; vector := pad (length (vocabulary s)) v;
                            text := txt; source := src |} (records s) |}.
Proof.
  unfold upsert.
  destruct (Nat.ltb_spec (length (vocabulary s)) (length v)) as [L|L];
    [discriminate|].
  intros H; inversion H. auto.
Qed.

Lemma upsert_consistent i txt src v s s' :
  consistent s -> upsert i txt src v s = inl s' -> consistent s'.
Proof.
  intros [Hd Hn] H. apply upsert_inl in H as [Hl ->].
  unfold consistent, ids, getAll in *. simpl. split; [|now apply put_NoDup].
  apply Forall_forall. intros r Hr.
  set (new := {| id := i; vector := pad (length (vocabulary s)) v;
                 text := txt; source := src |}) in *.
  destruct (str_eq_dec (id r) (id new)) as [E|E].
  - assert (r = new) as ->.
    { apply (NoDup_id_eq (put new (records s))); trivial.
      - now apply put_NoDup.
      - apply put_In. }
    simpl. now apply pad_length.
  - apply put_other in Hr; trivial. rewrite Forall_forall in Hd. auto.
Qed.

Lemma growVocabulary_consistent nv s :
  NoDup (ids s) -> consistent (growVocabulary nv s).
Proof.
  intros Hn. unfold consistent, ids, getAll in *. simpl. split.
  - apply Forall_forall. intros r Hr. apply in_map_iff in Hr as [r0 [<- _]].
    simpl. apply reproject_length.
  - now rewrite map_map.
Qed.

Lemma reachable_consistent s : reachable s -> consistent s.
Proof.
  induction 1 as [|s s' i txt src v _ IH H|s nv _ IH].
  - split; constructor.
  - eauto using upsert_consistent.
  - apply growVocabulary_consistent, IH.
Qed.
End VectorStoreFacts.

(** C2.  After an insertion under an id that the collection holds, the
    ids are the ids of before, no two records share one, and the record
    under the id is the one supplied: its text, its source and its vector
    (padded with zeros to the length of the vocabulary, so the vector
    itself when it has that length).  The other records are untouched. *)
Theorem upsert_overwrites (s s' : VectorStore.t) (i txt src : str) (v : list float) :
  NoDup (VectorStore.ids s) ->
  In i (VectorStore.ids s) ->
  VectorStore.upsert i txt src v s = inl s' ->
  let r := {| VectorStore.id := i;
              VectorStore.vector :=
                VectorStore.pad (length (VectorStore.vocabulary s)) v;
              VectorStore.text := txt;
              VectorStore.source := src |} in
  VectorStore.ids s' = VectorStore.ids s /\
  NoDup (VectorStore.ids s') /\
  In r (VectorStore.getAll s') /\
  (forall r', In r' (VectorStore.getAll s') -> VectorStore.id r' = i -> r' = r) /\
  (length v = length (VectorStore.vocabulary s) -> VectorStore.vector r = v) /\
  (forall r', VectorStore.id r' <> i ->
     (In r' (VectorStore.getAll s') <-> In r' (VectorStore.getAll s))).
Proof.
  intros Hn Hi H r. apply VectorStoreFacts.upsert_inl in H as [Hl ->].
  unfold VectorStore.ids, VectorStore.getAll in *. simpl. fold r.
  assert (Hids : map VectorStore.id (VectorStore.put r (VectorStore.records s))
                 = map VectorStore.id (VectorStore.records s)).
  { rewrite VectorStoreFacts.put_ids.
    destruct (in_dec str_eq_dec (VectorStore.id r) _) as [|n]; trivial.
    now destruct n. }
  split; [exact Hids|].
  split; [now rewrite Hids|].
  split; [apply VectorStoreFacts.put_In|].
  split.
  { intros r' Hr' E.
    apply (VectorStoreFacts.NoDup_id_eq (VectorStore.put r (VectorStore.records s)));
      trivial.
    - now rewrite Hids.
    - apply VectorStoreFacts.put_In. }
  split.
  { intros E. rewrite <- E. apply VectorStoreFacts.pad_exact. }
  intros r' Hne. now apply VectorStoreFacts.put_other.
Qed.

(** C4.  After [growVocabulary], the records are those of before with
    their ids, texts and sources; every vector has the length of the new
    vocabulary; at the index of a term that the old vocabulary lacks it
    holds [0.0], and at the index of a term of the old vocabulary the
    weight it held.  In every state that a store reaches, all vectors
    have the length of the vocabulary. *)
Theorem growVocabulary_reprojects (s : VectorStore.t) (newVocabulary : list str) :
  let s' := VectorStore.growVocabulary newVocabulary s in
  VectorStore.vocabulary s' = newVocabulary /\
  length (VectorStore.getAll s') = length (VectorStore.getAll s) /\
  Forall (fun r => length (VectorStore.vector r) = length newVocabulary)
    (VectorStore.getAll s') /\
  (forall n r, nth_error (VectorStore.getAll s) n = Some r ->
     exists r', nth_error (VectorStore.getAll s') n = Some r' /\
       VectorStore.id r' = VectorStore.id r /\
       VectorStore.text r' = VectorStore.text r /\
       VectorStore.source r' = VectorStore.source r /\
       forall k w, nth_error newVocabulary k = Some w ->
         (~ In w (VectorStore.vocabulary s) ->
            nth_error (VectorStore.vector r') k = Some 0%float) /\
         (forall j, VectorStore.index_of w (VectorStore.vocabulary s) = Some j ->
            nth_error (VectorStore.vector r') k
            = Some (nth j (VectorStore.vector r) 0%float))) /\
  (forall st, VectorStore.reachable st ->
     Forall (fun r => length (VectorStore.vector r)
                      = length (VectorStore.vocabulary st))
       (VectorStore.getAll st)).
Proof.
  simpl. unfold VectorStore.getAll. simpl.
  split; trivial.
  split; [apply length_map|].
  split.
  { apply Forall_forall. intros r Hr. apply in_map_iff in Hr as [r0 [<- _]].
    simpl. apply VectorStoreFacts.reproject_length. }
  split.
  { intros n r Hr. rewrite nth_error_map, Hr. simpl.
    eexists. split; [reflexivity|]. simpl. repeat split; trivial.
    - intros Hw. rewrite (VectorStoreFacts.reproject_entry _ _ _ _ _ H).
      apply VectorStoreFacts.index_of_None in Hw. now rewrite Hw.
    - intros j Hj. rewrite (VectorStoreFacts.reproject_entry _ _ _ _ _ H).
      now rewrite Hj. }
  intros st Hst. apply (VectorStoreFacts.reachable_consistent st Hst).
Qed.

(** ** The store of the specification's example *)

(** The store is the one that ingesting the two documents builds. *)
Example store_built :
  let s1 := VectorStore.growVocabulary
              [lit "alloy"; lit "density"; lit "strength"] VectorStore.empty in
  match VectorStore.upsert (lit "doc1") (lit "alloy strength density") (lit "a.pdf")
          [1; 1; 1]%float s1 with
  | inl s2 =>
      VectorStore.upsert (lit "doc2") (lit "density corrosion strength") (lit "b.pdf")
        [0; 1; 1; 1]%float
        (VectorStore.growVocabulary
           [lit "alloy"; lit "corrosion"; lit "density"; lit "strength"] s2)
  | inr e => inr e
  end = inl Example.store.
Proof. reflexivity. Qed.

Lemma upsert_overwrites_witness :
  VectorStore.ids Example.store' = VectorStore.ids Example.store /\
  NoDup (VectorStore.ids Example.store') /\
  (forall r', In r' (VectorStore.getAll Example.store') ->
              VectorStore.id r' = lit "doc1" -> r' = Example.doc1').
Proof.
  assert (Hn : NoDup (VectorStore.ids Example.store)).
  { repeat constructor; simpl; intuition discriminate. }
  assert (Hi : In (lit "doc1") (VectorStore.ids Example.store))
    by (simpl; auto).
  pose proof (upsert_overwrites Example.store Example.store'
                (lit "doc1") (lit "corrosion corrosion") (lit "c.pdf")
                [0; 2]%float Hn Hi eq_refl) as H.
  simpl in H. destruct H as (H1 & H2 & _ & H4 & _). auto.
Defined.

(** A vector longer than the vocabulary is refused. *)
Example upsert_dimension_mismatch :
  VectorStore.upsert (lit "doc3") (lit "x") (lit "d.pdf")
    [1; 1; 1; 1; 1]%float Example.store
  = inr VectorStore.DimensionMismatch.
Proof. reflexivity. Qed.

(** * The identifier of a stored record *)

Lemma lit_inj s1 s2 : lit s1 = lit s2 -> s1 = s2.
Proof.
  unfold lit. intros H.
  rewrite <- (string_of_list_ascii_of_string s1),
          <- (string_of_list_ascii_of_string s2).
  f_equal. revert H.
  generalize (list_ascii_of_string s1) (list_ascii_of_string s2).
  induction l as [|a l IH]; intros [|b l']; simpl; try discriminate; trivial.
  intros H. inversion H as [[Ha Hl]]. f_equal; auto.
  rewrite <- (ascii_N_embedding a), <- (ascii_N_embedding b). now rewrite Ha.
Qed.

Lemma to_int_not_nil z : Z.to_int z <> Decimal.Pos Decimal.Nil /\
                         Z.to_int z <> Decimal.Neg Decimal.Nil.
Proof.
  split; intros H; pose proof (f_equal Z.of_int H) as E;
    rewrite DecimalZ.of_to in E; cbv in E; subst z; discriminate.
Qed.

Lemma str_of_int_inj a b : str_of_int a = str_of_int b -> a = b.
Proof.
  unfold str_of_int. intros H. apply lit_inj in H.
  apply DecimalZ.to_int_inj.
  destruct (to_int_not_nil a) as [A1 A2], (to_int_not_nil b) as [B1 B2].
  pose proof (NilZero.isi (Z.to_int a) A1 A2) as Ha.
  pose proof (NilZero.isi (Z.to_int b) B1 B2) as Hb.
  rewrite H in Ha. congruence.
Qed.

Section MainFacts.
Variable lower : str -> str.
Variable is_word : codepoint -> bool.
Variable stem : str -> str.
Context {seed : Type}.
Variable hash : seed -> str -> Z.

(** Two processes give a response the same id exactly when its hash is
    the same in both. *)
Lemma entry_id_stable_iff (s1 s2 : seed) (pdf_path response : str) :
  entry_id stem hash s1 pdf_path response = entry_id stem hash s2 pdf_path response
  <-> hash s1 response = hash s2 response.
Proof.
  unfold entry_id. split.
  - intros H. apply app_inv_head in H. apply app_inv_head in H.
    now apply str_of_int_inj.
  - now intros ->.
Qed.

Lemma store_response_ids (s : seed) (pdf_path response : str) :
  ids (store_response lower is_word stem hash s pdf_path response)
  = [entry_id stem hash s pdf_path response].
Proof. reflexivity. Qed.
End MainFacts.

Example hash_of_a_response :
  CPython.hash (CPython.secret_of_seed 0) (lit "alloy strength density")
  = 2546043245576888553%Z /\
  CPython.hash (CPython.secret_of_seed 1) (lit "alloy strength density")
  = 1525926343893385782%Z.
Proof. split; vm_compute; reflexivity. Qed.

(** C3 fails on the code.  The id that [main] gives the record of a
    response changes with the hash secret of the process: run with
    PYTHONHASHSEED=0 and with PYTHONHASHSEED=1, the same document and
    the same response are stored under two ids. *)
Theorem record_id_depends_on_hash_secret
    (lower : str -> str) (is_word : codepoint -> bool) (stem : str -> str)
    (pdf_path : str) :
  ids (store_response lower is_word stem CPython.hash (CPython.secret_of_seed 0)
         pdf_path (lit "alloy strength density"))
  <> ids (store_response lower is_word stem CPython.hash (CPython.secret_of_seed 1)
            pdf_path (lit "alloy strength density")).
Proof.
  rewrite !store_response_ids. intros H. inversion H as [E].
  apply entry_id_stable_iff in E.
  vm_compute in E. discriminate.
Qed.

(** * More on [cosine_similarity] *)

Module Binary64More.
Import SF.
Local Open Scope Z_scope.

Lemma SFmul_comm a b : SF64mul a b = SF64mul b a.
Proof.
  destruct a as [[]|[]| |[] ma ea], b as [[]|[]| |[] mb eb]; try reflexivity;
    unfold SF64mul, SFmul; now rewrite Pos.mul_comm, Z.add_comm.
Qed.

Lemma mul_comm (x y : float) : mul x y = mul y x.
Proof.
  apply Prim2SF_inj. cbn [mul binary64]. rewrite !mul_spec. apply SFmul_comm.
Qed.

Lemma dot_from_comm (a b : list float) acc :
  Formula.dot_from acc a b = Formula.dot_from acc b a.
Proof.
  revert b acc. induction a as [|x a IH]; intros [|y b] acc; simpl; trivial.
  now rewrite IH, mul_comm.
Qed.

Lemma not_negative_nonneg x : (x <? 0)%float = false -> nonneg_sf (Prim2SF x).
Proof.
  rewrite ltb_spec. change (Prim2SF 0) with (S754_zero false).
  destruct (Prim2SF x) as [[]|[]| |[] m e]; simpl; trivial; discriminate.
Qed.

Lemma SFadd_eps_positive p :
  nonneg_sf p -> positive_or_nan (SF64add p eps_sf).
Proof.
  destruct p as [[]|[]| |[] m e]; try exact (fun _ => I); try contradiction.
  intros _.
  assert (H : positive_sf (SF64add (S754_finite false m e) eps_sf)).
  { apply Binary64.SFadd_positive. unfold SpecFloat.emin, prec, emax. simpl. lia. }
  destruct (SF64add (S754_finite false m e) eps_sf) as [|[]| |[] m' e'];
    try exact I; contradiction.
Qed.

Lemma SFdiv_nonneg a d :
  nonneg_sf a -> positive_or_nan d -> nonneg_sf (SF64div a d).
Proof.
  destruct a as [[]|[]| |[] ma ea], d as [[]|[]| |[] md ed];
    try exact (fun _ _ => I); try contradiction.
  intros _ _. unfold SF64div, SFdiv.
  destruct (SFdiv_core_binary prec emax (Zpos ma) ea (Zpos md) ed) as [[mz ez] lz].
  apply Binary64.binary_round_aux_nonneg.
Qed.

Lemma products_nonneg (a b : list float) :
  Forall (fun x => nonneg_sf (Prim2SF x)) a ->
  Forall (fun x => nonneg_sf (Prim2SF x)) b ->
  Forall (fun x => nonneg_sf (Prim2SF x)) (map (fun '(x, y) => mul x y) (zip a b)).
Proof.
  intros Ha. revert b. induction Ha as [|x a Hx _ IH]; intros [|y b] Hb; simpl;
    try constructor.
  - cbn [mul binary64]. rewrite mul_spec. apply Binary64.SFmul_nonneg; trivial.
    now inversion Hb.
  - apply IH. now inversion Hb.
Qed.

Lemma sum_nonneg (l : list float) acc :
  nonneg_sf (Prim2SF acc) ->
  Forall (fun x => nonneg_sf (Prim2SF x)) l ->
  nonneg_sf (Prim2SF (fold_left add l acc)).
Proof.
  intros Hacc H. revert acc Hacc. induction H as [|x l Hx _ IH]; intros acc Hacc;
    simpl; trivial.
  apply IH. cbn [add binary64]. rewrite add_spec.
  now apply Binary64.SFadd_nonneg.
Qed.

(** [float(n)] for a count: it is the conversion of the 63-bit integer,
    whose specification gives its value. *)
Lemma float_of_int_spec z :
  0 <= z < 2 ^ 63 ->
  Prim2SF (float_of_int z) = binary_normalize prec emax z 0 false.
Proof.
  intros Hz. unfold float_of_int.
  assert (E : Uint63.to_Z (Uint63.of_Z z) = z).
  { rewrite Uint63.of_Z_spec. apply Z.mod_small.
    change Uint63.wB with (2 ^ 63). lia. }
  pose proof (of_uint63_spec (Uint63.of_Z z)) as H. rewrite E in H.
  rewrite <- H at 1. now rewrite SF2Prim_Prim2SF.
Qed.

Lemma float_of_int_nonneg z :
  0 <= z < 2 ^ 63 -> nonneg_sf (Prim2SF (float_of_int z)).
Proof.
  intros Hz. rewrite float_of_int_spec by trivial.
  destruct z as [|p|p]; [exact I | | lia].
  unfold binary_normalize, binary_round.
  destruct (shl_align _ _ _) as [mz ez]. apply Binary64.binary_round_aux_nonneg.
Qed.

Lemma float_of_int_positive z :
  0 < z < 2 ^ 63 -> (0 <? float_of_int z)%float = true.
Proof.
  intros Hz. rewrite ltb_spec, float_of_int_spec by lia.
  change (Prim2SF 0) with (S754_zero false).
  destruct z as [|p|p]; try lia.
  assert (H : positive_sf (binary_normalize prec emax (Zpos p) 0 false)).
  { apply Binary64.binary_round_positive.
    unfold SpecFloat.emin, prec, emax. lia. }
  destruct (binary_normalize prec emax (Zpos p) 0 false) as [|[]| |[] m e];
    try contradiction; reflexivity.
Qed.
End Binary64More.

(** X1.  The score does not depend on the order of its arguments: both
    calls return, and the two scores are both NaN, or they are one
    float.  (Of two NaNs nothing more is said: the sign and the payload
    of a NaN are not part of the model, and they can differ.) *)
Theorem cosine_similarity_symmetric (a b : list float) :
  exists r r',
    cosine_similarity a b = Return r /\
    cosine_similarity b a = Return r' /\
    (is_nan r = true /\ is_nan r' = true \/ is_nan r = false /\ r' = r).
Proof.
  rewrite !cosine_similarity_returns. do 2 eexists.
  split; [reflexivity|]. split; [reflexivity|].
  assert (E : Formula.similarity b a = Formula.similarity a b).
  { unfold Formula.similarity, Formula.dot.
    now rewrite Binary64More.dot_from_comm,
      (Binary64More.mul_comm (Formula.norm a)). }
  rewrite E. destruct (is_nan (Formula.similarity a b)); auto.
Qed.

Lemma similarity_not_negative (a b : list float) :
  Forall (fun x => SF.nonneg_sf (Prim2SF x)) a ->
  Forall (fun x => SF.nonneg_sf (Prim2SF x)) b ->
  (Formula.similarity a b <? 0)%float = false.
Proof.
  intros Ha Hb. apply Binary64.nonneg_not_negative.
  unfold Formula.similarity. rewrite <- dot_eq, <- !norm_eq.
  cbn [div add mul sqrt binary64]. rewrite div_spec, add_spec, mul_spec, !sqrt_spec.
  apply Binary64More.SFdiv_nonneg.
  - apply Binary64More.sum_nonneg; [exact I|].
    now apply Binary64More.products_nonneg.
  - apply Binary64More.SFadd_eps_positive, Binary64.SFmul_nonneg;
      apply Binary64.SFsqrt_nonneg.
Qed.

Section VectorizerMore.
Variable lower : str -> str.
Variable is_word : codepoint -> bool.

Lemma count_le_length (toks : list str) w :
  (count_occ str_eq_dec toks w <= length toks)%nat.
Proof.
  induction toks as [|t toks IH]; simpl; trivial.
  destruct (str_eq_dec t w); lia.
Qed.

Lemma text_vector_nonneg T vocab :
  (Z.of_nat (length (tokens lower is_word T)) < 2 ^ 63)%Z ->
  Forall (fun x => SF.nonneg_sf (Prim2SF x))
    (fst (text_to_vector lower is_word T vocab)).
Proof.
  intros Hlen. simpl. apply Forall_forall. intros x Hx.
  apply in_map_iff in Hx as [w [<- _]]. rewrite Counter_get.
  apply Binary64More.float_of_int_nonneg.
  pose proof (count_le_length (tokens lower is_word T) w). lia.
Qed.

(** X2.  The score of two texts vectorized over one vocabulary is never
    negative, and the call raises nothing. *)
Theorem text_similarity_not_negative (T1 T2 : str) (V : list str) :
  (Z.of_nat (length (tokens lower is_word T1)) < 2 ^ 63)%Z ->
  (Z.of_nat (length (tokens lower is_word T2)) < 2 ^ 63)%Z ->
  exists r,
    cosine_similarity (fst (text_to_vector lower is_word T1 (Some V)))
                      (fst (text_to_vector lower is_word T2 (Some V)))
    = Return r /\
    (r <? 0)%float = false.
Proof.
  intros H1 H2. rewrite cosine_similarity_returns. eexists. split; [reflexivity|].
  apply similarity_not_negative; now apply text_vector_nonneg.
Qed.

(** X3.  A query that shares no token with the vocabulary is the zero vector,
    and scores [0.0] against every vector whose norm is finite. *)
Theorem query_without_vocabulary_terms (Q : str) (V : list str) (d : list float) :
  (forall w, In w V -> ~ In w (tokens lower is_word Q)) ->
  is_finite (Formula.norm d) = true ->
  all_zero (fst (text_to_vector lower is_word Q (Some V))) = true /\
  cosine_similarity (fst (text_to_vector lower is_word Q (Some V))) d
  = Return 0%float.
Proof.
  intros HV Hd.
  assert (Hz : all_zero (fst (text_to_vector lower is_word Q (Some V))) = true).
  { simpl. unfold all_zero. apply forallb_forall. intros x Hx.
    apply in_map_iff in Hx as [w [<- Hw]]. rewrite Counter_get.
    assert (E : count_occ str_eq_dec (tokens lower is_word Q) w = 0%nat)
      by (apply count_occ_not_In; auto).
    rewrite E. reflexivity. }
  split; trivial.
  rewrite cosine_similarity_returns. f_equal. apply zero_side_score. auto.
Qed.

(** X4.  Bag of words: the order of the tokens does not matter. *)
Theorem text_to_vector_bag_of_words (T T' : str) (vocab : option (list str)) :
  Permutation (tokens lower is_word T) (tokens lower is_word T') ->
  text_to_vector lower is_word T vocab = text_to_vector lower is_word T' vocab.
Proof.
  intros HP.
  assert (Hc : forall w, dict_get (Counter (tokens lower is_word T)) w 0
                         = dict_get (Counter (tokens lower is_word T')) w 0).
  { intros w. rewrite !Counter_get. f_equal.
    now apply Permutation_count_occ. }
  assert (Hk : sorted str_ltb (keys (Counter (tokens lower is_word T)))
               = sorted str_ltb (keys (Counter (tokens lower is_word T')))).
  { destruct (Counter_keys (tokens lower is_word T)) as [N1 I1].
    destruct (Counter_keys (tokens lower is_word T')) as [N2 I2].
    apply str_sorted_unique; try now apply sorted_str_sorted.
    intros w. split; intros Hw.
    - apply (Permutation_in _ (sorted_perm str_ltb _)). apply I2.
      apply (Permutation_in _ HP). apply I1.
      apply (Permutation_in _ (Permutation_sym (sorted_perm str_ltb _))). exact Hw.
    - apply (Permutation_in _ (sorted_perm str_ltb _)). apply I1.
      apply (Permutation_in _ (Permutation_sym HP)). apply I2.
      apply (Permutation_in _ (Permutation_sym (sorted_perm str_ltb _))). exact Hw. }
  unfold text_to_vector. destruct vocab as [V|].
  - f_equal. apply map_ext. intros w. now rewrite Hc.
  - rewrite Hk. f_equal. apply map_ext. intros w. now rewrite Hc.
Qed.

Lemma findall_no_words s :
  Forall (fun c => is_word c = false) s -> findall_words is_word s = [].
Proof.
  unfold findall_words. induction 1 as [|c s Hc _ IH]; simpl; trivial.
  now rewrite Hc.
Qed.

(** X5.  A text without a word character (the empty text, for one) has no
    token: it defines the empty vocabulary and the empty vector, and over
    a given vocabulary its vector is all zeros. *)
Theorem text_to_vector_without_words (T : str) :
  Forall (fun c => is_word c = false) (lower T) ->
  text_to_vector lower is_word T None = ([], []) /\
  forall V, text_to_vector lower is_word T (Some V)
            = (repeat 0%float (length V), V).
Proof.
  intros H. unfold text_to_vector, tokens. rewrite findall_no_words by trivial.
  split; [reflexivity|]. intros V. f_equal.
  induction V as [|w V IH]; simpl; trivial. f_equal. exact IH.
Qed.

(** X6.  In the vocabulary-defining mode no entry is zero: every term of the
    vocabulary occurs in the text. *)
Theorem text_to_vector_entries_positive (T : str) :
  (Z.of_nat (length (tokens lower is_word T)) < 2 ^ 63)%Z ->
  Forall (fun x => (0 <? x)%float = true)
    (fst (text_to_vector lower is_word T None)).
Proof.
  intros Hlen. simpl. apply Forall_forall. intros x Hx.
  apply in_map_iff in Hx as [w [<- Hw]]. rewrite Counter_get.
  apply Binary64More.float_of_int_positive.
  pose proof (count_le_length (tokens lower is_word T) w).
  apply (Permutation_in _ (Permutation_sym (sorted_perm str_ltb _))) in Hw.
  apply (proj1 (proj2 (Counter_keys (tokens lower is_word T)) w)) in Hw.
  apply (count_occ_In str_eq_dec) in Hw. lia.
Qed.
End VectorizerMore.

(** X7.  A character that is not a word character separates tokens: the
    tokens of [s1 + c + s2] are those of [s1] followed by those of [s2]. *)
Theorem findall_words_separator
    (is_word : codepoint -> bool) (s1 s2 : str) (c : codepoint) :
  is_word c = false ->
  findall_words is_word (s1 ++ c :: s2)
  = findall_words is_word s1 ++ findall_words is_word s2.
Proof.
  intros Hc. unfold findall_words.
  assert (G : forall cur,
             scan is_word cur (s1 ++ c :: s2)
             = scan is_word cur s1 ++ scan is_word [] s2).
  { induction s1 as [|x s1 IH]; intros cur; simpl.
    - rewrite Hc. now destruct cur.
    - destruct (is_word x); [apply IH|].
      rewrite (IH []). now destruct cur. }
  apply G.
Qed.

(** ** Terms that no text can hold *)

Section VocabularyTerms.
Variable lower : str -> str.
Variable is_word : codepoint -> bool.

(** X8.  A vocabulary term that is empty or holds a character outside [\w]
    (a phrase of two words, for one) is no token of any text: its entry
    is [0.0] in every vector. *)
Theorem text_to_vector_term_not_a_word
    (T : str) (V : list str) (i : nat) (w : str) :
  nth_error V i = Some w ->
  w = [] \/ Exists (fun c => is_word c = false) w ->
  nth_error (fst (text_to_vector lower is_word T (Some V))) i = Some 0%float.
Proof.
  intros Hi Hw. simpl. rewrite (vector_entry _ _ _ _ Hi). f_equal.
  unfold frequency.
  assert (E : count_occ str_eq_dec (tokens lower is_word T) w = 0%nat).
  { apply count_occ_not_In. intros Hin.
    pose proof (word_runs_words is_word _ _
                  (findall_word_runs is_word (lower T))) as Hall.
    rewrite Forall_forall in Hall. destruct (Hall w Hin) as [Hne Hchars].
    destruct Hw as [->|Hex]; [now apply Hne|].
    apply Exists_exists in Hex as [c [Hc Hfalse]].
    rewrite Forall_forall in Hchars. rewrite (Hchars c Hc) in Hfalse.
    discriminate. }
  rewrite E. reflexivity.
Qed.
End VocabularyTerms.

(** ** Colliding ids *)

Lemma string_of_uint_chars (d : Decimal.uint) :
  ~ In 95%N (lit (NilEmpty.string_of_uint d)).
Proof.
  unfold lit.
  induction d; simpl; [tauto|..]; intros [H|H]; try discriminate H; auto.
Qed.

Lemma str_of_int_no_underscore (z : Z) : ~ In 95%N (str_of_int z).
Proof.
  unfold str_of_int, NilZero.string_of_int.
  assert (U : forall d, ~ In 95%N (lit (NilZero.string_of_uint d))).
  { intros d. unfold NilZero.string_of_uint.
    destruct d; try apply string_of_uint_chars.
    simpl. intros [H|[]]. discriminate H. }
  destruct (Z.to_int z) as [d|d]; [apply U|].
  intros [H|H]; [discriminate H|]. now apply (U d).
Qed.

Lemma split_at_last (x : codepoint) (l1 l2 n1 n2 : str) :
  ~ In x n1 -> ~ In x n2 ->
  l1 ++ x :: n1 = l2 ++ x :: n2 -> l1 = l2 /\ n1 = n2.
Proof.
  intros H1 H2. revert l2.
  induction l1 as [|a l1 IH]; intros [|b l2] E; simpl in E.
  - inversion E. auto.
  - inversion E as [[Ex En]]. exfalso. apply H1. rewrite En.
    apply in_or_app. right. now left.
  - inversion E as [[Ex En]]. exfalso. apply H2. rewrite <- En.
    apply in_or_app. right. now left.
  - inversion E as [[Ea El]]. destruct (IH l2 El) as [-> ->]. auto.
Qed.

Section Ids.
Variable stem : str -> str.
Context {seed : Type}.
Variable hash : seed -> str -> Z.

(** X9.  Two records get the same id exactly when the stems of their paths
    are equal and so are the hashes of their responses: the directory
    and the extension of the PDF play no part, and no two different
    pairs of a stem and a hash run into one id. *)
Theorem entry_id_collision (s1 s2 : seed) (path1 path2 response1 response2 : str) :
  entry_id stem hash s1 path1 response1 = entry_id stem hash s2 path2 response2
  <-> stem path1 = stem path2 /\ hash s1 response1 = hash s2 response2.
Proof.
  unfold entry_id. split.
  - intros H. change (lit "_") with [95%N] in H. simpl in H.
    apply split_at_last in H; try apply str_of_int_no_underscore.
    destruct H as [Hs Hh]. split; trivial. now apply str_of_int_inj.
  - now intros [-> ->].
Qed.
End Ids.

(** ** Instances *)

Lemma text_similarity_not_negative_witness :
  exists r,
    cosine_similarity
      (fst (text_to_vector AsciiText.lower AsciiText.is_word
              (lit "Alloy strength") (Some [lit "alloy"; lit "strength"])))
      (fst (text_to_vector AsciiText.lower AsciiText.is_word
              (lit "strength, density") (Some [lit "alloy"; lit "strength"])))
    = Return r /\
    (r <? 0)%float = false.
Proof.
  apply (text_similarity_not_negative AsciiText.lower AsciiText.is_word
           (lit "Alloy strength") (lit "strength, density")
           [lit "alloy"; lit "strength"]);
    vm_compute; reflexivity.
Defined.

Lemma query_without_vocabulary_terms_witness :
  all_zero (fst (text_to_vector AsciiText.lower AsciiText.is_word
                   (lit "copper wire") (Some [lit "alloy"; lit "density"])))
  = true /\
  cosine_similarity
    (fst (text_to_vector AsciiText.lower AsciiText.is_word
            (lit "copper wire") (Some [lit "alloy"; lit "density"])))
    [1; 2]%float
  = Return 0%float.
Proof.
  apply (query_without_vocabulary_terms AsciiText.lower AsciiText.is_word
           (lit "copper wire") [lit "alloy"; lit "density"] [1; 2]%float).
  - intros w [<-|[<-|[]]]; vm_compute; intros [H|[H|[]]]; discriminate H.
  - vm_compute. reflexivity.
Defined.

Lemma text_to_vector_bag_of_words_witness :
  text_to_vector AsciiText.lower AsciiText.is_word (lit "iron rust") None
  = text_to_vector AsciiText.lower AsciiText.is_word (lit "Rust, iron") None.
Proof.
  apply (text_to_vector_bag_of_words AsciiText.lower AsciiText.is_word
           (lit "iron rust") (lit "Rust, iron") None).
  vm_compute. apply perm_swap.
Defined.

Lemma text_to_vector_without_words_witness :
  text_to_vector AsciiText.lower AsciiText.is_word (lit "-- !") None = ([], []) /\
  forall V, text_to_vector AsciiText.lower AsciiText.is_word (lit "-- !") (Some V)
            = (repeat 0%float (length V), V).
Proof.
  apply (text_to_vector_without_words AsciiText.lower AsciiText.is_word (lit "-- !")).
  vm_compute. repeat constructor.
Defined.

Lemma text_to_vector_entries_positive_witness :
  Forall (fun x => (0 <? x)%float = true)
    (fst (text_to_vector AsciiText.lower AsciiText.is_word
            (lit "Rust, dust; rust") None)).
Proof.
  apply (text_to_vector_entries_positive AsciiText.lower AsciiText.is_word
           (lit "Rust, dust; rust")).
  vm_compute. reflexivity.
Defined.

Lemma findall_words_separator_witness :
  findall_words AsciiText.is_word (lit "rust" ++ 44%N :: lit "iron")
  = findall_words AsciiText.is_word (lit "rust")
    ++ findall_words AsciiText.is_word (lit "iron").
Proof.
  apply (findall_words_separator AsciiText.is_word (lit "rust") (lit "iron") 44%N).
  reflexivity.
Defined.

Lemma text_to_vector_term_not_a_word_witness :
  nth_error
    (fst (text_to_vector AsciiText.lower AsciiText.is_word
            (lit "high tensile strength")
            (Some [lit "strength"; lit "tensile strength"]))) 1
  = Some 0%float.
Proof.
  apply (text_to_vector_term_not_a_word AsciiText.lower AsciiText.is_word
           (lit "high tensile strength")
           [lit "strength"; lit "tensile strength"] 1 (lit "tensile strength")).
  - reflexivity.
  - right. apply Exists_exists. exists 32%N. split; [|reflexivity].
    vm_compute. tauto.
Defined.

(** * What the scripts do *)

Module ScriptFacts.
Import Script.
Local Open Scope script_scope.

Ltac run :=
  unfold main, search_main, extract_text_from_pdf, ask_gemini, try_except,
    bind, call, print, raise, ret, getenv, setenv, start;
  cbn -[lit].

(** Case analysis on what the run waits for: the innermost scrutinee of
    the term that computes the result. *)
Ltac stuck t :=
  lazymatch t with
  | match ?x with _ => _ end => stuck x
  | (match ?x with _ => _ end) _ => stuck x
  | negb ?x => stuck x
  | format ?x => stuck x
  | _ => t
  end.

Ltac step :=
  lazymatch goal with
  | |- match ?t with _ => _ end =>
      let s := stuck t in
      destruct s eqn:?; cbn -[lit In];
      try match goal with
          | H : truthy _ = true |- _ => discriminate H
          end
  end.

Lemma truthy_format (s : option str) : truthy s = true -> Some (format s) = s.
Proof. destruct s as [[|c s]|]; simpl; congruence. Qed.

Lemma truthy_nonempty (s : option str) : truthy s = true -> format s <> [].
Proof. destruct s as [[|c s]|]; simpl; congruence. Qed.

Lemma In_calls (e : event) (t : list event) : In e t -> In e (calls e t).
Proof.
  intros H. apply filter_In. split; [exact H|]. now destruct e.
Qed.

Lemma before_In (e1 e2 : event) (t : list event) :
  before e1 e2 t -> In e1 t /\ In e2 t.
Proof.
  induction 1 as [t H|x t H [IH1 IH2]]; simpl; auto.
Qed.

(** An event of a trace that is known up to the lines a loop printed:
    only the calls of the same operation matter. *)
Ltac event_cases :=
  repeat match goal with
         | H : In _ (_ :: _) |- _ =>
             apply In_calls in H; cbn [calls filter same_call In] in H
         | H : In _ [] |- _ => destruct H
         | H : In _ (filter _ (map _ _)) |- _ =>
             apply filter_In in H; destruct H as [H _];
             apply in_map_iff in H; destruct H as (? & H & _)
         | H : _ \/ _ |- _ => destruct H as [H|H]
         | H : False |- _ => contradiction
         | H : @eq event _ _ |- _ =>
             first [discriminate H | inversion H; subst; clear H]
         | H : @eq (outcome _) _ _ |- _ => discriminate H
         | u : unit |- _ => destruct u
         end.

Ltac in_list := solve [cbn [In]; repeat first [left; reflexivity | right]].

Ltac in_order :=
  solve [repeat first [apply before_here; in_list | apply before_later]].

Ltac close :=
  repeat first [split | eexists];
  first [ reflexivity | eassumption | discriminate
        | apply truthy_nonempty; assumption
        | apply truthy_format; assumption
        | in_list | in_order ].

Section Facts.
Variable ext : externals.

(** X10.  [extract_text_from_pdf]: an exception of the test whether
    the file exists leaves the function as it is (the test stands before
    the [try]); a missing file is reported as [FileNotFoundError]; in
    both cases nothing is opened; a failure while reading is raised
    again as a plain [Exception], with a prefix to its message; on
    success the text is the pages joined by newlines. *)
Theorem extract_text_from_pdf_outcomes (p : str) (env : option str) :
  let '(r, w) := extract_text_from_pdf ext p (start env) in
  environ w = env /\
  match r with
  | Done text =>
      path_exists ext p = Done true /\
      exists pages, read_pages ext p = Done pages /\ text = join nl pages
  | Raised e =>
      (path_exists ext p = Raised e /\ trace w = [PathExists p]) \/
      (path_exists ext p = Done false /\
       e = FileNotFoundError (lit "PDF file not found: " ++ path_str ext p) /\
       trace w = [PathExists p]) \/
      (path_exists ext p = Done true /\
       trace w = [PathExists p; ReadPdf p] /\
       exists e0, read_pages ext p = Raised e0 /\
         (if ordinary e0
          then e = Exception (lit "Error extracting text from PDF: " ++ message e0)
          else e = e0))
  end.
Proof.
  run. destruct (path_exists ext p) as [[|]|e]; cbn.
  - destruct (read_pages ext p) as [pages|e0]; cbn.
    + split; trivial. split; trivial. now exists pages.
    + destruct (ordinary e0) eqn:E; cbn; (split; [trivial|]); right; right;
        (split; [trivial|]); (split; [trivial|]); exists e0; rewrite E; auto.
  - split; trivial. right. left. auto.
  - split; trivial. left. auto.
Qed.

(** X11.  [ask_gemini]: the key is the argument when it is a non-empty string,
    else the environment's; without one the call raises [ValueError] and
    the service is not called; with one the service is called once, with
    the prompt, a fixed line and the document; a failure of the service
    is raised again as a plain [Exception], with a prefix to its
    message. *)
Theorem ask_gemini_outcomes (prompt text : str) (k env : option str) :
  let key := format (or_ k env) in
  let contents :=
    prompt ++ nl ++ nl ++ lit "Here is the document content:" ++ nl ++ text in
  let '(r, w) := ask_gemini ext prompt text k (start env) in
  environ w = env /\
  if truthy k || truthy env then
    key <> [] /\
    key = (if truthy k then format k else format env) /\
    trace w = [GenerateContent key (lit "gemini-2.5-flash") contents] /\
    match generate_content ext key (lit "gemini-2.5-flash") contents with
    | Done answer => r = Done answer
    | Raised e0 =>
        r = Raised (if ordinary e0
                    then Exception (lit "Error calling Gemini API: " ++ message e0)
                    else e0)
    end
  else
    trace w = [] /\
    r = Raised (ValueError (lit "Gemini API key not provided")).
Proof.
  run. unfold or_.
  destruct (truthy k) eqn:Hk; cbn [orb].
  - rewrite Hk. cbn.
    destruct (generate_content ext (format k) _ _) as [answer|e0] eqn:G; cbn.
    + repeat split; trivial. now apply truthy_nonempty.
    + destruct (ordinary e0); cbn; repeat split; trivial; now apply truthy_nonempty.
  - destruct (truthy env) eqn:He; cbn.
    + destruct (generate_content ext (format env) _ _) as [answer|e0] eqn:G; cbn.
      * repeat split; trivial. now apply truthy_nonempty.
      * destruct (ordinary e0); cbn; repeat split; trivial;
          now apply truthy_nonempty.
    + auto.
Qed.


(** What every run of [main] satisfies, read off its trace. *)
Lemma main_trace (a : args) (env : option str) :
  let '(r, w) := main ext a (start env) in
  let model := lit "gemini-2.5-flash" in
  let stored response :=
    store_response (str_lower ext) (re_word ext) (path_stem ext)
      (fun _ : unit => str_hash ext) tt (pdf_path a) response in
  (forall k m c, In (GenerateContent k m c) (trace w) ->
     (exists pages,
        read_pages ext (pdf_path a) = Done pages /\
        c = analysis_prompt ext ++ nl ++ nl
            ++ lit "Here is the document content:" ++ nl ++ join nl pages) /\
     m = model /\
     k <> [] /\
     Some k = (if truthy (api_key a) then api_key a else env) /\
     before (ReadPdf (pdf_path a)) (GenerateContent k m c) (trace w) /\
     calls (GenerateContent k m c) (trace w) = [GenerateContent k m c]) /\
  (forall d, In (PersistentClient d) (trace w) ->
     d = lit "./chroma_data" /\
     exists response,
       before (Write (output_file ext a) response) (PersistentClient d) (trace w) /\
       write ext (output_file ext a) response = Done tt) /\
  (forall n, In (GetCollection n) (trace w) \/ In (CreateCollection n) (trace w) ->
     n = lit "gemini_responses") /\
  (forall n, ~ In (GetOrCreateCollection n) (trace w)) /\
  (forall q n, ~ In (Query q n) (trace w)) /\
  (forall request, In (Add request) (trace w) ->
     exists k c response,
       generate_content ext k model c = Done response /\
       request = stored response /\
       before (GenerateContent k model c) (Add request) (trace w) /\
       before (Write (output_file ext a) response) (Add request) (trace w)) /\
  (r = Done 0%Z ->
     exists response,
       before (Write (output_file ext a) response) (Add (stored response))
         (trace w) /\
       before (Add (stored response)) Persist (trace w) /\
       write ext (output_file ext a) response = Done tt /\
       collection_add ext (stored response) = Done tt /\
       client_persist ext = Done tt).
Proof.
  destruct a as [p o k]; run; unfold or_; cbn -[lit In].
  destruct (truthy k) eqn:Hk; cbn -[lit In]; repeat step; repeat apply conj.
  all: unfold not; intros; event_cases.
  all: close.
Qed.

(** X13.  [main] calls the service only after the PDF was read, once, with
    the model fixed, the prompt followed by a fixed line and the pages
    joined by newlines, and a non-empty key: [--api-key], else the
    environment's. *)
Theorem main_calls_service (a : args) (env : option str) (k m c : str) :
  In (GenerateContent k m c) (trace (snd (main ext a (start env)))) ->
  (exists pages,
     read_pages ext (pdf_path a) = Done pages /\
     c = analysis_prompt ext ++ nl ++ nl
         ++ lit "Here is the document content:" ++ nl ++ join nl pages) /\
  m = lit "gemini-2.5-flash" /\
  k <> [] /\
  Some k = (if truthy (api_key a) then api_key a else env) /\
  before (ReadPdf (pdf_path a)) (GenerateContent k m c)
    (trace (snd (main ext a (start env)))) /\
  calls (GenerateContent k m c) (trace (snd (main ext a (start env))))
  = [GenerateContent k m c].
Proof.
  intros H. pose proof (main_trace a env) as T.
  destruct (main ext a (start env)) as [r w]. now apply T.
Qed.

(** X14.  [main] opens the database only after the answer was written to the
    output file, and the write returned; the directory is
    [./chroma_data], the collection [gemini_responses]; it never
    queries. *)
Theorem main_database_after_file (a : args) (env : option str) (e : event) :
  In e (trace (snd (main ext a (start env)))) ->
  match e with
  | PersistentClient d =>
      d = lit "./chroma_data" /\
      exists response,
        before (Write (output_file ext a) response) e
          (trace (snd (main ext a (start env)))) /\
        write ext (output_file ext a) response = Done tt
  | GetCollection n | CreateCollection n => n = lit "gemini_responses"
  | GetOrCreateCollection _ | Query _ _ => False
  | _ => True
  end.
Proof.
  intros H. pose proof (main_trace a env) as T.
  destruct (main ext a (start env)) as [r w]. cbn [snd] in *.
  destruct T as (_ & T2 & T3 & T4 & T5 & _).
  destruct e; auto.
  - now apply (T4 name).
  - now apply (T5 query_texts n_results).
Qed.

(** X15.  What [main] adds to the collection is the record of the service's
    answer, as it came: the document is the answer, the id and the
    embedding are computed from it, and the same answer was written to
    the output file before. *)
Theorem main_stores_the_answer (a : args) (env : option str) (request : add_request) :
  In (Add request) (trace (snd (main ext a (start env)))) ->
  exists k c response,
    generate_content ext k (lit "gemini-2.5-flash") c = Done response /\
    request = store_response (str_lower ext) (re_word ext) (path_stem ext)
                (fun _ : unit => str_hash ext) tt (pdf_path a) response /\
    before (GenerateContent k (lit "gemini-2.5-flash") c) (Add request)
      (trace (snd (main ext a (start env)))) /\
    before (Write (output_file ext a) response) (Add request)
      (trace (snd (main ext a (start env)))).
Proof.
  intros H. pose proof (main_trace a env) as T.
  destruct (main ext a (start env)) as [r w]. now apply T.
Qed.

(** X16.  When [main] returns 0 the answer was written to the output file,
    added to the collection and the client persisted, in this order, and
    each of these calls returned. *)
Theorem main_success_means_stored (a : args) (env : option str) :
  fst (main ext a (start env)) = Done 0%Z ->
  exists response,
    let request :=
      store_response (str_lower ext) (re_word ext) (path_stem ext)
        (fun _ : unit => str_hash ext) tt (pdf_path a) response in
    before (Write (output_file ext a) response) (Add request)
      (trace (snd (main ext a (start env)))) /\
    before (Add request) Persist (trace (snd (main ext a (start env)))) /\
    write ext (output_file ext a) response = Done tt /\
    collection_add ext request = Done tt /\
    client_persist ext = Done tt.
Proof.
  intros H. pose proof (main_trace a env) as T.
  destruct (main ext a (start env)) as [r w]. now apply T.
Qed.

(** A loop of prints adds one line per element, in order. *)
Lemma for_each_print (f : str -> str) (l : list str) (w : world) :
  for_each l (fun x => print (f x)) w
  = (Done tt, {| environ := environ w;
                 trace := trace w ++ map (fun x => Print (f x)) l |}).
Proof.
  revert w. induction l as [|x l IH]; intros [env t]; simpl.
  - now rewrite app_nil_r.
  - unfold bind, print, call at 1. cbn [environ trace]. rewrite IH.
    cbn [environ trace]. now rewrite <- app_assoc.
Qed.

(** What every run of [search.py] satisfies, read off its trace. *)
Lemma search_main_trace (q : option str) (env : option str) :
  let '(r, w) := search_main ext q (start env) in
  environ w = env /\
  (forall e, In e (trace w) ->
     match e with
     | PersistentClient d => d = lit "./chroma_db"
     | GetOrCreateCollection n => n = lit "materials"
     | Query texts n => texts = [q] /\ n = 3%Z
     | Print _ => True
     | _ => False
     end) /\
  (forall e, r = Raised e ->
     persistent_client ext (lit "./chroma_db") = Raised e \/
     get_or_create_collection ext (lit "materials") = Raised e \/
     collection_query ext [q] 3 = Raised e \/
     exists results,
       collection_query ext [q] 3 = Done results /\
       result_ids results = [] /\
       e = IndexError (lit "list index out of range") /\
       last (trace w) (Print []) = Print (lit "foo")).
Proof.
  run.
  repeat first
    [ match goal with
      | |- context [for_each ?l ?b ?w] =>
          change (for_each l b w)
            with (for_each l (fun x => print (lit "- " ++ x)) w);
          rewrite for_each_print; cbn -[lit In]
      end
    | step ];
    repeat apply conj; try reflexivity.
  all: intros x H; try (destruct x; event_cases; auto; fail).
  all: try discriminate H.
  all: inversion H; subst; eauto 10.
Qed.
End Facts.

Section Search.
Variable ext : externals.

(** X17.  [search.py] only reads: whatever the collaborators return, it opens
    [./chroma_db], gets or creates the collection [materials], queries
    it with the query as given (also when [--query] is missing) for 3
    results, and prints; it adds nothing, writes no file and does not
    call the service. *)
Theorem search_main_only_queries (q env : option str) (e : event) :
  In e (trace (snd (search_main ext q (start env)))) ->
  match e with
  | PersistentClient d => d = lit "./chroma_db"
  | GetOrCreateCollection n => n = lit "materials"
  | Query texts n => texts = [q] /\ n = 3%Z
  | Print _ => True
  | _ => False
  end.
Proof.
  intros H. pose proof (search_main_trace ext q env) as T.
  destruct (search_main ext q (start env)) as [r w]. now apply T.
Qed.



(** X20.  What [test_google.py] stores, [search.py] does not search: the two
    scripts open different directories and different collections. *)
Theorem scripts_use_different_stores
    (a : args) (q env env' : option str) (e e' : event) :
  In e (trace (snd (main ext a (start env)))) ->
  In e' (trace (snd (search_main ext q (start env')))) ->
  match e, e' with
  | PersistentClient d, PersistentClient d' =>
      d = lit "./chroma_data" /\ d' = lit "./chroma_db" /\ d <> d'
  | (GetCollection n | CreateCollection n), GetOrCreateCollection n' =>
      n = lit "gemini_responses" /\ n' = lit "materials" /\ n <> n'
  | _, _ => True
  end.
Proof.
  intros H H'.
  pose proof (main_trace ext a env) as T.
  pose proof (search_main_trace ext q env') as S.
  destruct (main ext a (start env)) as [r w].
  destruct (search_main ext q (start env')) as [r' w'].
  cbn [snd] in *.
  destruct T as (_ & T2 & T3 & _), S as (_ & S2 & _).
  apply S2 in H'.
  destruct e; trivial; destruct e'; trivial.
  - destruct (T2 _ H) as [-> _]. subst. repeat split. discriminate.
  - assert (name = lit "gemini_responses") by (apply T3; auto).
    subst. repeat split. discriminate.
  - assert (name = lit "gemini_responses") by (apply T3; auto).
    subst. repeat split. discriminate.
Qed.
End Search.

Section AnalysisFacts.
Variable ext : externals.

(** What every run of [main] of [analysis.py] satisfies. *)
Lemma analysis_main_trace (a : Analysis.args) (env : option str) :
  let '(r, w) := Analysis.main ext a (start env) in
  (environ w = (if truthy (Analysis.api_key a) then Analysis.api_key a else env) /\
   match r with
   | Done c =>
       (c = 0%Z /\
        exists path response,
          Analysis.pdf_path a = Some path /\
          write ext (Analysis.output_file ext a path) response = Done tt /\
          last (trace w) (Print []) =
          Print (nl ++ lit "Results saved to '"
                 ++ Analysis.output_file ext a path ++ lit "'")) \/
       (c = 1%Z /\
        exists e, ordinary e = true /\
                  last (trace w) (Print []) = Print (lit "Error: " ++ message e))
   | Raised e => ordinary e = false
   end) /\
  (forall e, In e (trace w) ->
     match e with
     | Print _ | SetEnv _ | PathExists _ | ReadPdf _ => True
     | GenerateContent k m c =>
         m = lit "gemini-2.5-flash" /\
         k <> [] /\
         Some k = (if truthy (Analysis.api_key a) then Analysis.api_key a else env) /\
         exists path pages,
           Analysis.pdf_path a = Some path /\
           read_pages ext path = Done pages /\
           c = analysis_py_prompt ext ++ nl ++ nl
               ++ lit "Here is the document content:" ++ nl ++ join nl pages
     | OpenW f =>
         exists path k c response,
           Analysis.pdf_path a = Some path /\
           f = Analysis.output_file ext a path /\
           generate_content ext k (lit "gemini-2.5-flash") c = Done response /\
           before (Print response) e (trace w)
     | Write f response =>
         exists path k c,
           Analysis.pdf_path a = Some path /\
           f = Analysis.output_file ext a path /\
           generate_content ext k (lit "gemini-2.5-flash") c = Done response /\
           before (Print response) e (trace w)
     | _ => False
     end) /\
  (Analysis.pdf_path a = None ->
   r = Done 1%Z /\
   trace w =
   (if truthy (Analysis.api_key a) then [SetEnv (format (Analysis.api_key a))] else [])
   ++ [Print (lit "Extracting text from None...");
       Print (lit "Error: " ++ path_of_None ext)]).
Proof.
  destruct a as [[p|] o k]; unfold Analysis.main; run; unfold or_; cbn -[lit In];
    destruct (truthy k) eqn:Hk; cbn -[lit In]; repeat step; repeat apply conj.
  all: try discriminate.
  all: try (intros x H; destruct x; event_cases; close).
  all: try (intros _; split; reflexivity).
  all: try first [reflexivity | assumption | apply truthy_format; assumption].
  all: repeat match goal with u : unit |- _ => destruct u end.
  all: try (left; split; [reflexivity|]; do 2 eexists;
            repeat split; first [reflexivity | eassumption]).
  all: try (right; split; [reflexivity|];
            first [ eexists; split; [eassumption | reflexivity]
                  | eexists (Build_exc [] _ true); split; reflexivity ]).
Qed.


(** X22.  [analysis.py] uses no database: besides printing and setting
    the key it only tests and reads the PDF, calls the service (with a
    non-empty key, the fixed model, and its prompt followed by the
    pages) and opens and writes the output file; what it writes is the
    answer of the service, and it has printed it before. *)
Theorem analysis_main_calls (a : Analysis.args) (env : option str) (e : event) :
  In e (trace (snd (Analysis.main ext a (start env)))) ->
  match e with
  | Print _ | SetEnv _ | PathExists _ | ReadPdf _ => True
  | GenerateContent k m c =>
      m = lit "gemini-2.5-flash" /\
      k <> [] /\
      Some k = (if truthy (Analysis.api_key a) then Analysis.api_key a else env) /\
      exists path pages,
        Analysis.pdf_path a = Some path /\
        read_pages ext path = Done pages /\
        c = analysis_py_prompt ext ++ nl ++ nl
            ++ lit "Here is the document content:" ++ nl ++ join nl pages
  | OpenW f =>
      exists path k c response,
        Analysis.pdf_path a = Some path /\
        f = Analysis.output_file ext a path /\
        generate_content ext k (lit "gemini-2.5-flash") c = Done response /\
        before (Print response) e (trace (snd (Analysis.main ext a (start env))))
  | Write f response =>
      exists path k c,
        Analysis.pdf_path a = Some path /\
        f = Analysis.output_file ext a path /\
        generate_content ext k (lit "gemini-2.5-flash") c = Done response /\
        before (Print response) e (trace (snd (Analysis.main ext a (start env))))
  | _ => False
  end.
Proof.
  intros H. pose proof (analysis_main_trace a env) as T.
  destruct (Analysis.main ext a (start env)) as [r w]. now apply T.
Qed.

End AnalysisFacts.

(** ** Instances: a run on one PDF *)

Lemma main_calls_service_witness :
  let ext := Demo.ext true in
  let k := lit "k-123" in
  let m := lit "gemini-2.5-flash" in
  let c := lit "Analyse the alloy." ++ nl ++ nl
           ++ lit "Here is the document content:" ++ nl
           ++ lit "Alloy 7075" ++ nl ++ lit "strength, density" in
  (exists pages,
     read_pages ext (pdf_path Demo.arguments) = Done pages /\
     c = analysis_prompt ext ++ nl ++ nl
         ++ lit "Here is the document content:" ++ nl ++ join nl pages) /\
  m = lit "gemini-2.5-flash" /\
  k <> [] /\
  Some k = (if truthy (api_key Demo.arguments) then api_key Demo.arguments else None) /\
  before (ReadPdf (pdf_path Demo.arguments)) (GenerateContent k m c)
    (trace (snd (main ext Demo.arguments (start None)))) /\
  calls (GenerateContent k m c) (trace (snd (main ext Demo.arguments (start None))))
  = [GenerateContent k m c].
Proof.
  intros ext k m c.
  apply (main_calls_service ext Demo.arguments None k m c).
  vm_compute. in_list.
Defined.

Lemma main_database_after_file_witness :
  let ext := Demo.ext true in
  lit "./chroma_data" = lit "./chroma_data" /\
  exists response,
    before (Write (output_file ext Demo.arguments) response)
      (PersistentClient (lit "./chroma_data"))
      (trace (snd (main ext Demo.arguments (start None)))) /\
    write ext (output_file ext Demo.arguments) response = Done tt.
Proof.
  intros ext.
  apply (main_database_after_file ext Demo.arguments None
           (PersistentClient (lit "./chroma_data"))).
  vm_compute. in_list.
Defined.

Lemma main_stores_the_answer_witness :
  let ext := Demo.ext true in
  let request :=
    {| documents := [lit "alloy strength density"];
       metadatas := [lit "alloy.pdf"];
       ids := [lit "alloy_2546043245576888553"];
       embeddings := [[1; 1; 1]%float] |} in
  exists k c response,
    generate_content ext k (lit "gemini-2.5-flash") c = Done response /\
    request = store_response (str_lower ext) (re_word ext) (path_stem ext)
                (fun _ : unit => str_hash ext) tt (pdf_path Demo.arguments) response /\
    before (GenerateContent k (lit "gemini-2.5-flash") c) (Add request)
      (trace (snd (main ext Demo.arguments (start None)))) /\
    before (Write (output_file ext Demo.arguments) response) (Add request)
      (trace (snd (main ext Demo.arguments (start None)))).
Proof.
  intros ext request.
  apply (main_stores_the_answer ext Demo.arguments None request).
  vm_compute. in_list.
Defined.

Lemma main_success_means_stored_witness :
  let ext := Demo.ext true in
  exists response,
    let request :=
      store_response (str_lower ext) (re_word ext) (path_stem ext)
        (fun _ : unit => str_hash ext) tt (pdf_path Demo.arguments) response in
    before (Write (output_file ext Demo.arguments) response) (Add request)
      (trace (snd (main ext Demo.arguments (start None)))) /\
    before (Add request) Persist
      (trace (snd (main ext Demo.arguments (start None)))) /\
    write ext (output_file ext Demo.arguments) response = Done tt /\
    collection_add ext request = Done tt /\
    client_persist ext = Done tt.
Proof.
  intros ext.
  apply (main_success_means_stored ext Demo.arguments None).
  vm_compute. reflexivity.
Defined.

Lemma search_main_only_queries_witness :
  [Some (lit "light alloy")] = [Some (lit "light alloy")] /\ 3%Z = 3%Z.
Proof.
  apply (search_main_only_queries (Demo.ext true) (Some (lit "light alloy")) None
           (Query [Some (lit "light alloy")] 3)).
  vm_compute. in_list.
Defined.



Lemma scripts_use_different_stores_witness :
  lit "./chroma_data" = lit "./chroma_data" /\
  lit "./chroma_db" = lit "./chroma_db" /\
  lit "./chroma_data" <> lit "./chroma_db".
Proof.
  apply (scripts_use_different_stores (Demo.ext true) Demo.arguments
           (Some (lit "light alloy")) None None
           (PersistentClient (lit "./chroma_data"))
           (PersistentClient (lit "./chroma_db"))).
  - vm_compute. in_list.
  - vm_compute. in_list.
Defined.

Lemma analysis_main_calls_witness :
  let ext := Demo.ext true in
  let a := {| Analysis.pdf_path := Some (lit "alloy.pdf");
              Analysis.output := Some (lit "out.txt");
              Analysis.api_key := None |} in
  let e := Write (lit "out.txt") (lit "alloy strength density") in
  exists path k c,
    Analysis.pdf_path a = Some path /\
    lit "out.txt" = Analysis.output_file ext a path /\
    generate_content ext k (lit "gemini-2.5-flash") c
    = Done (lit "alloy strength density") /\
    before (Print (lit "alloy strength density")) e
      (trace (snd (Analysis.main ext a (start (Some (lit "k-9")))))).
Proof.
  intros ext a e.
  apply (analysis_main_calls ext a (Some (lit "k-9")) e).
  vm_compute. in_list.
Defined.

End ScriptFacts.
